(** * RTags: the include auditor, the AST cursor dump and the query daemon

    A shallow embedding of [src/ClangThread.cpp] (the include auditor
    [checkIncludes] with its two searches, and [addCursor]) and of
    [Daemon.cpp] (the command handlers [addSourceFile], [removeSourceFile],
    [lookupLine], [lookup] and [load]), with the properties the
    specification states about them. *)

From Stdlib Require Import Ascii.
From stdpp Require Import gmap strings list fin_maps pretty.

#[local] Set Warnings "-clear-no-such-hyp".

Local Open Scope string_scope.
Local Open Scope nat_scope.
Local Open Scope list_scope.

(** ** Part I.  ClangThread.cpp: the include auditor *)

Module IncludeAudit.

(** [Location]: a file id with a line and a column. *)
Abbreviation Location := (N * N * N)%type.

(** Modelled from the spec: [DependencyNode], the base of [struct Dep], is
    declared outside the two files; the spec gives it, per file id,
    [includes : set<file id>].  The source uses [includes] as a hash from the
    id of an included file to its node, and the node is the entry of
    [mDependencies] under that id, so a node pointer is followed by a lookup
    in the table.  [references] is the member that [Dep] adds (line 28). *)
Record Dep := mkDep {
  fileId : N;
  includes : gset N;
  references : gmap N (gmap Location Location)
}.

(** [mDependencies : Hash<uint32_t, Dep*>]. *)
Abbreviation Deps := (gmap N Dep).

(** The outcome of a search: the answer and the [seen] set, which the source
    passes by reference.  [None]: the search did not return (an assertion
    failed, a pointer led nowhere, or the recursion budget was used up). *)
Abbreviation Outcome := (option (bool * gset N)).

(** The [for] loops of both searches: follow each child pointer and return at
    the first child for which the search answers [true]. *)
Fixpoint anyChild (g : Deps) (visit : Dep → gset N → Outcome)
    (children : list N) (seen : gset N) : Outcome :=
  match children with
  | [] => Some (false, seen)
  | c :: rest =>
      match g !! c with
      | None => None
      | Some child =>
          match visit child seen with
          | None => None
          | Some (true, seen') => Some (true, seen')
          | Some (false, seen') => anyChild g visit rest seen'
          end
      end
  end.

(** [validateHasInclude(ref, cur, seen)].  The set receives [ref], as the
    source writes it. *)
Fixpoint validateHasInclude (fuel : nat) (g : Deps) (ref : N) (cur : Dep)
    (seen : gset N) : Outcome :=
  match fuel with
  | O => None
  | S fuel' =>
      if decide (ref = 0%N) then None (* assert(ref) *)
      else if decide (ref ∈ includes cur) then Some (true, seen)
      else if decide (ref ∈ seen) then Some (false, seen)
      else anyChild g (validateHasInclude fuel' g ref)
             (elements (includes cur)) ({[ref]} ∪ seen)
  end.

(** [validateNeedsInclude(source, header, seen)]. *)
Fixpoint validateNeedsInclude (fuel : nat) (g : Deps) (source header : Dep)
    (seen : gset N) : Outcome :=
  match fuel with
  | O => None
  | S fuel' =>
      if decide (fileId header ∈ seen) then Some (false, seen)
      else
        let seen1 := {[fileId header]} ∪ seen in
        if decide (fileId header ∈ dom (references source))
        then Some (true, seen1)
        else anyChild g (validateNeedsInclude fuel' g source)
               (elements (includes header)) seen1
  end.

(** What [checkIncludes] writes to the connection: the arguments of the two
    format strings. *)
Inductive message :=
  | IncludesForNoReason (source header : N)
  | ShouldInclude (source ref : N) (reasons : list (Location * Location)).

Section CheckIncludes.
(** [Location::path] and [Path::isSystem] are not part of the two files. *)
Variable path : N → string.
Variable isSystem : string → bool.

(** The test on [refPath] of line 273. *)
Definition exempted (refPath : string) : bool :=
  String.prefix "/usr/include/sys/_types/_" refPath
  || String.prefix "/usr/include/_types/_" refPath.

(** The body of the loop over [it.second->includes]. *)
Definition auditInclude (fuel : nat) (g : Deps) (F : N) (d : Dep) (H : N)
    : option (list message) :=
  match g !! H with
  | None => None
  | Some h =>
      match validateNeedsInclude fuel g d h ∅ with
      | None => None
      | Some (true, _) => Some []
      | Some (false, _) => Some [IncludesForNoReason F (fileId h)]
      end
  end.

(** The body of the loop over [it.second->references]. *)
Definition auditReference (fuel : nat) (g : Deps) (F : N) (d : Dep)
    (ref : N * gmap Location Location) : option (list message) :=
  if exempted (path ref.1) then Some []
  else
    match validateHasInclude fuel g ref.1 d ∅ with
    | None => None
    | Some (true, _) => Some []
    | Some (false, _) => Some [ShouldInclude F ref.1 (map_to_list ref.2)]
    end.

(** The body of the loop over [mDependencies]. *)
Definition auditFile (fuel : nat) (g : Deps) (it : N * Dep)
    : option (list message) :=
  if isSystem (path it.1) then Some []
  else
    match mapM (auditInclude fuel g it.1 it.2) (elements (includes it.2)) with
    | None => None
    | Some unneeded =>
        match mapM (auditReference fuel g it.1 it.2)
                (map_to_list (references it.2)) with
        | None => None
        | Some missing => Some (concat unneeded ++ concat missing)
        end
    end.

(** [ClangThread::checkIncludes()]: the messages in the order written.  The
    nodes are deleted when the loops are done. *)
Definition checkIncludes (fuel : nat) (g : Deps) : option (list message) :=
  (λ written, concat written) <$> mapM (auditFile fuel g) (map_to_list g).
End CheckIncludes.

(** [mDependencies[id]], with [new Dep(id)] where there is no node yet. *)
Definition nodeAt (g : Deps) (id : N) : Dep :=
  default (mkDep id ∅ ∅) (g !! id).

(** [handleInclude]: [fromFile] is [loc.fileId()], [included] the id of the
    included file.  Both get a node, and [source->include(include)] records
    the edge. *)
Definition handleInclude (fromFile included : N) (g : Deps) : Deps :=
  let g := <[fromFile := nodeAt g fromFile]> g in
  let g := <[included := nodeAt g included]> g in
  let source := nodeAt g fromFile in
  <[fromFile := mkDep (fileId source) ({[included]} ∪ includes source)
                  (references source)]> g.

(** [handleReference], past the test on the kind of [ref]: [refLoc] is null
    ([None]) or a location; both asserts must hold. *)
Definition handleReference (loc : Location) (refLoc : option Location)
    (g : Deps) : option Deps :=
  match refLoc with
  | None => Some g
  | Some refLoc =>
      if decide (refLoc.1.1 = loc.1.1) then Some g
      else
        match g !! loc.1.1, g !! refLoc.1.1 with
        | Some dep, Some refDep =>
            let refs := default ∅ (references dep !! fileId refDep) in
            Some (<[loc.1.1 :=
                     mkDep (fileId dep) (includes dep)
                       (<[fileId refDep := <[loc := refLoc]> refs]>
                          (references dep))]> g)
        | _, _ => None
        end
  end.

(** The table as [handleInclude] and [handleReference] leave it: a node sits
    under its own id, every included id has a node, and no reference targets
    the null file id. *)
Definition wf (g : Deps) : Prop :=
  map_Forall (λ F d,
    fileId d = F
    ∧ set_Forall (λ H, is_Some (g !! H)) (includes d)
    ∧ (0%N ∉ dom (references d))) g.

(** No node sits under the null file id. *)
Definition built (g : Deps) : Prop := wf g ∧ g !! 0%N = None.

#[global] Instance wf_dec g : Decision (wf g).
Proof. unfold wf. apply _. Defined.

(** What [validateHasInclude] looks at from [cur]: the files [cur] includes
    and the files those include. *)
Definition includesOf (g : Deps) (ref A : N) : bool :=
  match g !! A with
  | Some a => bool_decide (ref ∈ includes a)
  | None => false
  end.

Definition includedWithinTwo (g : Deps) (ref : N) (cur : Dep) : bool :=
  bool_decide (ref ∈ includes cur)
  || existsb (includesOf g ref) (elements (includes cur)).

(** Example tables.  [chain4]: file 1 includes 2, 2 includes 3, 3 includes 4,
    and file 1 uses at line 10 a symbol that file 4 declares at line 3. *)
Definition chain4 : Deps :=
  {[ 1%N := mkDep 1 {[2%N]} {[ 4%N := {[ (1, 10, 5)%N := (4, 3, 1)%N ]} ]};
     2%N := mkDep 2 {[3%N]} ∅;
     3%N := mkDep 3 {[4%N]} ∅;
     4%N := mkDep 4 ∅ ∅ ]}.

(** [cyclic]: file 1 includes itself and file 2, file 2 includes file 1, and
    file 1 uses a symbol of file 2. *)
Definition cyclic : Deps :=
  {[ 1%N := mkDep 1 {[1%N; 2%N]} {[ 2%N := {[ (1, 7, 3)%N := (2, 1, 1)%N ]} ]};
     2%N := mkDep 2 {[1%N]} ∅ ]}.

Definition srcPath (f : N) : string := "/src/file" +:+ pretty f.
Definition underUsr (p : string) : bool := String.prefix "/usr/" p.

(** Reachability along [includes]: a direct inclusion or a longer chain. *)
Inductive reaches (g : Deps) : N → N → Prop :=
  | reaches_direct F d R :
      g !! F = Some d → R ∈ includes d → reaches g F R
  | reaches_step F d A R :
      g !! F = Some d → A ∈ includes d → reaches g A R → reaches g F R.


End IncludeAudit.


(** ** Part II.  ClangThread.cpp: the cursor records of the AST dump *)

Module AstDump.
Import IncludeAudit.

(** A [Cursor*]: the address of a record, or null. *)
Abbreviation addr := positive.
Abbreviation ptr := (option positive).

(** [struct Cursor], with the members [addCursor] writes.  A [Location] that
    may be null is an [option]. *)
Record Cursor := mkCursor {
  usr : string;
  location : option Location;
  rangeStart : option Location;
  rangeEnd : option Location;
  referenced : ptr;
  kind : string;
  linkage : string;
  spelling : string;
  displayName : string;
  mangledName : string;
  templateKind : string;
  lexicalParent : ptr;
  semanticParent : ptr;
  canonical : ptr;
  flags : N;
  definition : ptr;
  specializedCursorTemplate : ptr;
  overridden : list addr;
  type : ptr
}.

(** A record as [new Cursor] leaves it, then [c->usr] and [c->location]. *)
Definition newCursor (u : string) (l : Location) : Cursor :=
  mkCursor u (Some l) None None None "" "" "" "" "" "" None None None 0%N None
    None [] None.

(** The assignments to the members. *)
Definition set_referenced (p : ptr) (c : Cursor) : Cursor :=
  mkCursor (usr c) (location c) (rangeStart c) (rangeEnd c) p (kind c)
    (linkage c) (spelling c) (displayName c) (mangledName c) (templateKind c)
    (lexicalParent c) (semanticParent c) (canonical c) (flags c)
    (definition c) (specializedCursorTemplate c) (overridden c) (type c).

Definition set_lexicalParent (p : ptr) (c : Cursor) : Cursor :=
  mkCursor (usr c) (location c) (rangeStart c) (rangeEnd c) (referenced c)
    (kind c) (linkage c) (spelling c) (displayName c) (mangledName c)
    (templateKind c) p (semanticParent c) (canonical c) (flags c)
    (definition c) (specializedCursorTemplate c) (overridden c) (type c).

Definition set_semanticParent (p : ptr) (c : Cursor) : Cursor :=
  mkCursor (usr c) (location c) (rangeStart c) (rangeEnd c) (referenced c)
    (kind c) (linkage c) (spelling c) (displayName c) (mangledName c)
    (templateKind c) (lexicalParent c) p (canonical c) (flags c)
    (definition c) (specializedCursorTemplate c) (overridden c) (type c).

Definition set_canonical (p : ptr) (c : Cursor) : Cursor :=
  mkCursor (usr c) (location c) (rangeStart c) (rangeEnd c) (referenced c)
    (kind c) (linkage c) (spelling c) (displayName c) (mangledName c)
    (templateKind c) (lexicalParent c) (semanticParent c) p (flags c)
    (definition c) (specializedCursorTemplate c) (overridden c) (type c).

Definition set_definition (p : ptr) (c : Cursor) : Cursor :=
  mkCursor (usr c) (location c) (rangeStart c) (rangeEnd c) (referenced c)
    (kind c) (linkage c) (spelling c) (displayName c) (mangledName c)
    (templateKind c) (lexicalParent c) (semanticParent c) (canonical c)
    (flags c) p (specializedCursorTemplate c) (overridden c) (type c).

Definition set_specializedCursorTemplate (p : ptr) (c : Cursor) : Cursor :=
  mkCursor (usr c) (location c) (rangeStart c) (rangeEnd c) (referenced c)
    (kind c) (linkage c) (spelling c) (displayName c) (mangledName c)
    (templateKind c) (lexicalParent c) (semanticParent c) (canonical c)
    (flags c) (definition c) p (overridden c) (type c).

Definition set_range (r : option Location * option Location) (c : Cursor)
    : Cursor :=
  mkCursor (usr c) (location c) r.1 r.2 (referenced c) (kind c) (linkage c)
    (spelling c) (displayName c) (mangledName c) (templateKind c)
    (lexicalParent c) (semanticParent c) (canonical c) (flags c)
    (definition c) (specializedCursorTemplate c) (overridden c) (type c).

Definition set_templateKind (k : string) (c : Cursor) : Cursor :=
  mkCursor (usr c) (location c) (rangeStart c) (rangeEnd c) (referenced c)
    (kind c) (linkage c) (spelling c) (displayName c) (mangledName c) k
    (lexicalParent c) (semanticParent c) (canonical c) (flags c)
    (definition c) (specializedCursorTemplate c) (overridden c) (type c).

Definition set_names (k l s d m : string) (c : Cursor) : Cursor :=
  mkCursor (usr c) (location c) (rangeStart c) (rangeEnd c) (referenced c) k
    l s d m (templateKind c) (lexicalParent c) (semanticParent c)
    (canonical c) (flags c) (definition c) (specializedCursorTemplate c)
    (overridden c) (type c).

Definition or_flags (f : N) (c : Cursor) : Cursor :=
  mkCursor (usr c) (location c) (rangeStart c) (rangeEnd c) (referenced c)
    (kind c) (linkage c) (spelling c) (displayName c) (mangledName c)
    (templateKind c) (lexicalParent c) (semanticParent c) (canonical c)
    (N.lor (flags c) f) (definition c) (specializedCursorTemplate c)
    (overridden c) (type c).

Definition append_overridden (p : ptr) (c : Cursor) : Cursor :=
  mkCursor (usr c) (location c) (rangeStart c) (rangeEnd c) (referenced c)
    (kind c) (linkage c) (spelling c) (displayName c) (mangledName c)
    (templateKind c) (lexicalParent c) (semanticParent c) (canonical c)
    (flags c) (definition c) (specializedCursorTemplate c)
    (match p with Some o => overridden c ++ [o] | None => overridden c end)
    (type c).

Definition set_type (p : ptr) (c : Cursor) : Cursor :=
  mkCursor (usr c) (location c) (rangeStart c) (rangeEnd c) (referenced c)
    (kind c) (linkage c) (spelling c) (displayName c) (mangledName c)
    (templateKind c) (lexicalParent c) (semanticParent c) (canonical c)
    (flags c) (definition c) (specializedCursorTemplate c) (overridden c) p.


(** The pointer members of a record that are not null. *)
Definition edges (c : Cursor) : list addr :=
  omap id [referenced c; lexicalParent c; semanticParent c; canonical c;
           definition c; specializedCursorTemplate c]
  ++ overridden c.

(** What [addCursor] asks of libclang and of RTags about a cursor. *)
Record Clang (CXCursor : Type) := mkClang {
  nullCursor : CXCursor;
  equalCursors : CXCursor → CXCursor → bool;
  createLocation : CXCursor → option Location;
  getCursorUSR : CXCursor → string;
  getCursorExtent : CXCursor → option (option Location * option Location);
  getCursorReferenced : CXCursor → CXCursor;
  getCursorKindSpelling : CXCursor → string;
  linkageSpelling : CXCursor → string;
  getCursorSpelling : CXCursor → string;
  getCursorDisplayName : CXCursor → string;
  getMangling : CXCursor → string;
  getTemplateCursorKind : CXCursor → option string;
  getCursorLexicalParent : CXCursor → CXCursor;
  getCursorSemanticParent : CXCursor → CXCursor;
  getCanonicalCursor : CXCursor → CXCursor;
  isCursorDefinition : CXCursor → bool;
  getCursorDefinition : CXCursor → CXCursor;
  getSpecializedCursorTemplate : CXCursor → CXCursor;
  getOverriddenCursors : CXCursor → list CXCursor;
  flagDefinition : N
}.
Arguments nullCursor {_}. Arguments equalCursors {_}.
Arguments createLocation {_}. Arguments getCursorUSR {_}.
Arguments getCursorExtent {_}. Arguments getCursorReferenced {_}.
Arguments getCursorKindSpelling {_}. Arguments linkageSpelling {_}.
Arguments getCursorSpelling {_}. Arguments getCursorDisplayName {_}.
Arguments getMangling {_}. Arguments getTemplateCursorKind {_}.
Arguments getCursorLexicalParent {_}. Arguments getCursorSemanticParent {_}.
Arguments getCanonicalCursor {_}. Arguments isCursorDefinition {_}.
Arguments getCursorDefinition {_}. Arguments getSpecializedCursorTemplate {_}.
Arguments getOverriddenCursors {_}. Arguments flagDefinition {_}.

(** The records that are alive, by address, and [mCursorsByUsr].  The
    [shared_ptr] that owns a record is a local of the call that made it
    (line 316), and [mCursorsByUsr] and the members keep plain pointers: the
    record is destroyed when that call returns, and the pointers stay. *)
Record State := mkState {
  records : gmap positive Cursor;
  mCursorsByUsr : gmap string positive
}.

Definition initial : State := mkState ∅ ∅.

(** Computations that read and write the state and may not return. *)
Definition M (A : Type) : Type := State → option (A * State).

Definition ret {A} (a : A) : M A := λ st, Some (a, st).

Definition bind {A B} (k : A → M B) (m : M A) : M B :=
  λ st, match m st with
        | Some (a, st') => k a st'
        | None => None
        end.

#[global] Instance M_bind : MBind M := @bind.

(** [new Cursor]: a record at an address not in use.  Which one is the
    choice of the allocator; the model takes [fresh] of the addresses in
    use, so that an address whose record has been destroyed is handed out
    again, and what is proved of it for every run uses only that the
    address is not in use. *)
Definition alloc (c : Cursor) : M addr :=
  λ st, let a := fresh (dom (records st)) in
        Some (a, mkState (<[a := c]> (records st)) (mCursorsByUsr st)).

(** The end of the scope of [std::shared_ptr<Cursor> c]: the only owner
    goes, and the record with it. *)
Definition free (a : addr) : M unit :=
  λ st, Some (tt, mkState (delete a (records st)) (mCursorsByUsr st)).

(** [c->member = ...]. *)
Definition update (a : addr) (f : Cursor → Cursor) : M unit :=
  λ st, Some (tt, mkState (alter f a (records st)) (mCursorsByUsr st)).

(** [mCursorsByUsr[usr] = c.get()]. *)
Definition register (u : string) (a : addr) : M unit :=
  λ st, Some (tt, mkState (records st) (<[u := a]> (mCursorsByUsr st))).

(** [mCursorsByUsr.value(usr)]: null when there is no entry. *)
Definition lookupUsr (u : string) : M ptr :=
  λ st, Some (mCursorsByUsr st !! u, st).

Definition when (b : bool) (m : M unit) : M unit := if b then m else ret tt.

Fixpoint forEach {A} (f : A → M unit) (l : list A) : M unit :=
  match l with
  | [] => ret tt
  | x :: rest => f x ;; forEach f rest
  end.

(** The address [a] is in [mCursorsByUsr], under a USR that is not empty:
    some call has registered it. *)
Definition known (st : State) (a : addr) : Prop :=
  ∃ u, u ≠ "" ∧ mCursorsByUsr st !! u = Some a.

(** The two kinds of assignment to a member. *)
Definition edge_setter (set : ptr → Cursor → Cursor) : Prop :=
  ∀ p rec, usr (set p rec) = usr rec
    ∧ ∀ e, e ∈ edges (set p rec) → e ∈ edges rec ∨ p = Some e.

Definition plain_update (f : Cursor → Cursor) : Prop :=
  ∀ rec, usr (f rec) = usr rec ∧ ∀ e, e ∈ edges (f rec) → e ∈ edges rec.

(** A computation that returns keeps [P]. *)
Definition stable {A} (P : State → Prop) (m : M A) : Prop :=
  ∀ st a st', m st = Some (a, st') → P st → P st'.

(** The record at [c] is alive and each of its pointer members that is not
    null is an address in [mCursorsByUsr]. *)
Definition edgesKnown (c : addr) (st : State) : Prop :=
  ∃ rec, records st !! c = Some rec ∧ ∀ e, e ∈ edges rec → known st e.

Section AddCursor.
Context {CXCursor : Type} (clang : Clang CXCursor).

(** [c->member = addCursor(target)]. *)
Definition link (add : CXCursor → M ptr) (c : addr)
    (set : ptr → Cursor → Cursor) (target : CXCursor) : M unit :=
  p ← add target; update c (set p).

(** Lines 319-331: the extent, the referenced cursor, the registration. *)
Definition construct (add : CXCursor → M ptr) (cursor : CXCursor) (c : addr)
    : M unit :=
  when (bool_decide (is_Some (getCursorExtent clang cursor)))
    (update c (set_range (default (None, None) (getCursorExtent clang cursor))));;
  when (negb (equalCursors clang (getCursorReferenced clang cursor)
                (nullCursor clang)))
    (link add c set_referenced (getCursorReferenced clang cursor));;
  when (bool_decide (getCursorUSR clang cursor ≠ ""))
    (register (getCursorUSR clang cursor) c).

(** Lines 333-341: the spellings. *)
Definition describe (cursor : CXCursor) (c : addr) : M unit :=
  update c (set_names (getCursorKindSpelling clang cursor)
              (linkageSpelling clang cursor)
              (getCursorSpelling clang cursor)
              (getCursorDisplayName clang cursor)
              (getMangling clang cursor));;
  when (bool_decide (is_Some (getTemplateCursorKind clang cursor)))
    (update c (set_templateKind (default "" (getTemplateCursorKind clang cursor)))).

(** Lines 342-344: the parents. *)
Definition linkParents (add : CXCursor → M ptr) (cursor : CXCursor) (c : addr)
    : M unit :=
  link add c set_lexicalParent (getCursorLexicalParent clang cursor);;
  link add c set_semanticParent (getCursorSemanticParent clang cursor);;
  link add c set_lexicalParent (getCursorSemanticParent clang cursor).

(** Lines 345-371: the other cursors, and [addType], which returns null. *)
Definition linkOthers (add : CXCursor → M ptr) (cursor : CXCursor) (c : addr)
    : M unit :=
  link add c set_canonical (getCanonicalCursor clang cursor);;
  (if isCursorDefinition clang cursor
   then update c (or_flags (flagDefinition clang))
   else link add c set_definition (getCursorDefinition clang cursor));;
  link add c set_specializedCursorTemplate
    (getSpecializedCursorTemplate clang cursor);;
  forEach (link add c append_overridden) (getOverriddenCursors clang cursor);;
  update c (set_type None).

(** Lines 319-372: what the call writes into its record at [c]. *)
Definition fill (add : CXCursor → M ptr) (cursor : CXCursor) (c : addr)
    : M unit :=
  construct add cursor c;;
  describe cursor c;;
  linkParents add cursor c;;
  linkOthers add cursor c.

(** The location [addCursor] works with: the one passed, or the cursor's. *)
Definition resolveLocation (cursor : CXCursor) (location : option Location)
    : option Location :=
  if location is Some l then Some l else createLocation clang cursor.

(** [ClangThread::addCursor(cursor, location)]; the second argument is null
    where the source leaves it out. *)
Fixpoint addCursor (fuel : nat) (cursor : CXCursor) (location : option Location)
    : M ptr :=
  match fuel with
  | O => λ _, None
  | S fuel' =>
      let add target := addCursor fuel' target None in
      match resolveLocation cursor location with
      | None => ret None
      | Some location =>
          let usr := getCursorUSR clang cursor in
          found ← (if decide (usr = "") then ret None else lookupUsr usr);
          match found with
          | Some existing => ret (Some existing)
          | None =>
              c ← alloc (newCursor usr location);
              fill add cursor c;;
              free c;;
              ret None
          end
      end
  end.

(** A call that makes a record, as far as its last statement: the address
    of the record it has made and filled, which [return 0] is about to
    destroy. *)
Definition filled (fuel : nat) (cursor : CXCursor) (location : Location)
    : M addr :=
  match fuel with
  | O => λ _, None
  | S fuel' =>
      c ← alloc (newCursor (getCursorUSR clang cursor) location);
      fill (λ target, addCursor fuel' target None) cursor c;;
      ret c
  end.

(** A cursor for which [addCursor] returns null when it returns: it has no
    location, or no USR, or a USR that is not in [mCursorsByUsr]. *)
Definition firstSeen (st : State) (target : CXCursor) : Prop :=
  createLocation clang target = None
  ∨ getCursorUSR clang target = ""
  ∨ mCursorsByUsr st !! getCursorUSR clang target = None.
End AddCursor.

(** An example front end for
    [namespace N { struct S { void f(); }; }  namespace N { void S::f() {} }]:
    cursor 0 is the null cursor, 1 the translation unit (no location), 2 the
    namespace, 3 the struct and 4 the definition of [f], whose lexical parent
    is the namespace and whose semantic parent is the struct.  No cursor
    refers to another one. *)
Definition exampleClang : Clang nat :=
  let parent (lexical : bool) (c : nat) : nat :=
    match c with
    | 2 => 1
    | 3 => 2
    | 4 => if lexical then 2 else 3
    | _ => 0
    end in
  mkClang nat 0 Nat.eqb
    (λ c, match c with
          | 2 => Some (1, 1, 11)%N
          | 3 => Some (1, 1, 22)%N
          | 4 => Some (1, 2, 25)%N
          | _ => None
          end)
    (λ c, match c with
          | 2 => "c:@N@N"
          | 3 => "c:@N@N@S@S"
          | 4 => "c:@N@N@S@S@F@f#"
          | _ => ""
          end)
    (λ _, None) (λ _, 0)
    (λ c, match c with
          | 2 => "Namespace"
          | 3 => "StructDecl"
          | 4 => "CXXMethod"
          | _ => ""
          end)
    (λ _, "External") (λ _, "") (λ _, "") (λ _, "") (λ _, None)
    (parent true) (parent false) (λ c, c) (λ _, true) (λ c, c) (λ _, 0)
    (λ _, []) 1%N.

(** The state after [addCursor] on the definition of [f], from the empty
    state. *)
Definition dumped : State :=
  default initial (snd <$> addCursor exampleClang 4 4 None initial).

(** The state when that call is about to return, its record still alive. *)
Definition dumping : State :=
  default initial (snd <$> filled exampleClang 4 4 (1, 2, 25)%N initial).

End AstDump.

(** ** Part III.  Daemon.cpp: the command handlers *)

Module Daemon.

Abbreviation QByteArray := string.
Abbreviation Path := string.

(** A [CXTranslationUnit] is a pointer; 0 is the null pointer. *)
Abbreviation CXTranslationUnit := N.

(** The values a [QVariant] of the argument table holds. *)
Inductive QVariant :=
  | QInvalid
  | QBytes (b : QByteArray)
  | QInt (i : Z).

Abbreviation Args := (gmap string QVariant).

(** [args.value(key)]: a default-constructed variant when there is no entry. *)
Definition value (args : Args) (key : string) : QVariant :=
  default QInvalid (args !! key).

(** [args.contains(key)]. *)
Definition hasArg (args : Args) (key : string) : bool :=
  bool_decide (is_Some (args !! key)).

(** [createResultMap(result)]. *)
Definition createResultMap (result : QByteArray) : Args :=
  <["result" := QBytes result]> ∅.

(** *** Byte arrays *)

(** [QByteArray::contains]: [needle] occurs in [hay]. *)
Fixpoint bytesContain (needle hay : string) : bool :=
  String.prefix needle hay
  || match hay with
     | EmptyString => false
     | String _ rest => bytesContain needle rest
     end.

(** [QByteArray::split(sep)]. *)
Fixpoint split (sep : Ascii.ascii) (s : string) : list string :=
  match s with
  | EmptyString => [EmptyString]
  | String a rest =>
      if Ascii.eqb a sep then EmptyString :: split sep rest
      else match split sep rest with
           | [] => [String a EmptyString]
           | first :: others => String a first :: others
           end
  end.

(** [QByteArray::chop(1)]. *)
Definition chop1 (s : string) : string :=
  String.substring 0 (String.length s - 1) s.

(** The line feed. *)
Definition newline : string := String "010"%char EmptyString.

(** [joined(container, '\n')]. *)
Definition joined (container : list QByteArray) : QByteArray :=
  let all := foldl (λ acc f, acc +:+ f +:+ newline) "" container in
  if decide (all = "") then all else chop1 all.

(** [snprintf(buf, size, ...)] keeps [size - 1] characters of the text. *)
Definition snprintf (size : nat) (text : string) : string :=
  String.substring 0 (size - 1) text.

Definition tolower (a : Ascii.ascii) : Ascii.ascii :=
  let n := Ascii.nat_of_ascii a in
  if (65 <=? n) && (n <=? 90) then Ascii.ascii_of_nat (n + 32) else a.

Fixpoint lowered (s : string) : string :=
  match s with
  | EmptyString => EmptyString
  | String a rest => String (tolower a) (lowered rest)
  end.

(** [!strcasecmp(a, b)]. *)
Definition sameIgnoringCase (a b : string) : bool :=
  bool_decide (lowered a = lowered b).

(** *** What the handlers use from outside the file *)

Record Env (CXCursor : Type) := mkEnv {
  (** Path.h: the file system. [resolve] gives whether the path resolved and
      the path afterwards. *)
  isResolved : Path → bool;
  resolve : Path → bool * Path;
  isFile : Path → bool;
  (** [QRegExp::isValid] and [QString::contains(QRegExp)]. *)
  rxIsValid : string → bool;
  rxContains : string → string → bool;
  (** [QByteArray::toInt]. *)
  bytesToInt : QByteArray → Z;
  (** libclang: the cursor at a position of a file of a unit; Utils.h:
      [isValidCursor]; whether the kind is [CXCursor_CXXMethod]; the file
      name, line and column of the instantiation location. *)
  cursorAt : CXTranslationUnit → Path → Z → Z → CXCursor;
  isValidCursor : CXCursor → bool;
  isCXXMethod : CXCursor → bool;
  getCanonicalCursor : CXCursor → CXCursor;
  getCursorReferenced : CXCursor → CXCursor;
  instantiationLocation : CXCursor → string * N * N;
  (** Node.h: the kinds and their names. *)
  MethodDeclaration : Z;
  EnumValue : Z;
  All : Z;
  Root : Z;
  typeToName : Z → string;
  (** VisitThread: the [RegExp] flag and what the callbacks of a lookup
      write. *)
  RegExp : Z;
  visitLookup : list QByteArray → Z → Z → QByteArray
}.
Arguments isResolved {_}. Arguments resolve {_}. Arguments isFile {_}.
Arguments rxIsValid {_}. Arguments rxContains {_}. Arguments bytesToInt {_}.
Arguments cursorAt {_}. Arguments isValidCursor {_}. Arguments isCXXMethod {_}.
Arguments getCanonicalCursor {_}. Arguments getCursorReferenced {_}.
Arguments instantiationLocation {_}. Arguments MethodDeclaration {_}.
Arguments EnumValue {_}. Arguments All {_}. Arguments Root {_}.
Arguments typeToName {_}. Arguments RegExp {_}. Arguments visitLookup {_}.

(** The daemon: the cache [mTranslationUnits], and the calls made so far to
    [clang_disposeTranslationUnit], [mParseThread.addFile] (path and
    arguments), [mParseThread.loadTranslationUnit] and [mVisitThread.lookup]
    (patterns, flags, kinds). *)
Record State := mkState {
  mTranslationUnits : gmap Path CXTranslationUnit;
  disposed : list CXTranslationUnit;
  addedFiles : list (Path * list QByteArray);
  loads : list Path;
  lookups : list (list QByteArray * Z * Z)
}.

Definition toByteArray (v : QVariant) : QByteArray :=
  match v with
  | QInvalid => ""
  | QBytes b => b
  | QInt i => pretty i
  end.

Section Handlers.
Context {CXCursor : Type} (env : Env CXCursor).

Definition toInt (v : QVariant) : Z :=
  match v with
  | QInvalid => 0
  | QBytes b => bytesToInt env b
  | QInt i => i
  end.

(** [Daemon::addSourceFile]; [GccArguments()] is the empty argument list. *)
Definition addSourceFile (args : Args) (st : State) : Args * State :=
  let file := toByteArray (value args "file") in
  if decide (file = "") then
    (createResultMap "No file to add (use --file=<file>)", st)
  else
    let '(ok, file) := resolve env file in
    if negb ok then (createResultMap (file +:+ " Doesn't exist"), st)
    else
      (createResultMap "File added",
       mkState (mTranslationUnits st) (disposed st)
         (addedFiles st ++ [(file, [])]) (loads st) (lookups st)).

(** The test of the loop of [removeSourceFile]. *)
Definition matchesKey (regexp : bool) (pattern : QByteArray) (key : Path)
    : bool :=
  if regexp then rxContains env pattern key else bytesContain pattern key.

(** The loop of [removeSourceFile] over the keys in the order the iterator
    visits them.  After [erase] the iterator is at the next entry, whose key
    is appended; there is no such key when the iterator is at [end()]. *)
Fixpoint removeLoop (regexp : bool) (pattern : QByteArray) (keys : list Path)
    (units : gmap Path CXTranslationUnit) (released : list CXTranslationUnit)
    (removed : list QByteArray)
    : option (gmap Path CXTranslationUnit * list CXTranslationUnit
              * list QByteArray) :=
  match keys with
  | [] => Some (units, released, removed)
  | key :: rest =>
      match units !! key with
      | None => None
      | Some unit =>
          if matchesKey regexp pattern key then
            match rest with
            | [] => None
            | next :: _ =>
                removeLoop regexp pattern rest (delete key units)
                  (released ++ [unit]) (removed ++ [next])
            end
          else removeLoop regexp pattern rest units released removed
      end
  end.

(** [Daemon::removeSourceFile]; [order] lists the keys of the cache in the
    order in which the hash iterates over them (a key that is not in the
    cache gives no result). *)
Definition removeSourceFile (order : list Path) (args : Args)
    (freeArgs : list QByteArray) (st : State) : option (Args * State) :=
  let regexp := hasArg args "regexp" || hasArg args "r" in
  match freeArgs with
  | [first] =>
      if decide (first = "") then
        Some (createResultMap "Invalid arguments. I need exactly one free arg", st)
      else if regexp && (negb (rxIsValid env first) || bool_decide (first = ""))
      then Some (createResultMap "Invalid arguments. Bad regexp", st)
      else
        match removeLoop regexp first order (mTranslationUnits st)
                (disposed st) [] with
        | None => None
        | Some (units, released, removed) =>
            let st' := mkState units released (addedFiles st) (loads st)
                         (lookups st) in
            if decide (removed = []) then
              Some (createResultMap ("No matches for " +:+ first), st')
            else Some (createResultMap ("Removed " +:+ joined removed), st')
        end
  | _ => Some (createResultMap "Invalid arguments. I need exactly one free arg", st)
  end.

(** The text of the format string of [lookupLine], in full. *)
Definition symbolAt (location : string * N * N) : string :=
  "Symbol (decl) at " +:+ location.1.1 +:+ ", line " +:+ pretty location.1.2
  +:+ " column " +:+ pretty location.2.

(** The cursor [lookupLine] reports. *)
Definition resolveCursor (cursor : CXCursor) : CXCursor :=
  if isCXXMethod env cursor then getCanonicalCursor env cursor
  else getCursorReferenced env cursor.

(** [Daemon::lookupLine]. *)
Definition lookupLine (args : Args) (st : State) : Args :=
  if negb (hasArg args "file") || negb (hasArg args "line")
     || negb (hasArg args "column")
  then createResultMap "Invalid argument count"
  else
    let file := toByteArray (value args "file") in
    let file := if isResolved env file then (resolve env file).2 else file in
    let line := toInt (value args "line") in
    let column := toInt (value args "column") in
    if negb (isFile env file) || bool_decide (line = 0%Z)
       || bool_decide (column = 0%Z)
    then createResultMap "Invalid argument type"
    else
      let unit := default 0%N (mTranslationUnits st !! file) in
      if decide (unit = 0%N) then createResultMap "Translation unit not found"
      else
        let cursor := cursorAt env unit file line column in
        if negb (isValidCursor env cursor)
        then createResultMap "Unable to get cursor for location"
        else
          let referenced := resolveCursor cursor in
          if negb (isValidCursor env referenced)
          then createResultMap "No referenced cursor"
          else
            createResultMap
              (snprintf 63 (symbolAt (instantiationLocation env referenced))).

(** The loop of [stringToType]: [i] doubles from [MethodDeclaration] while
    it is at most [EnumValue].  A positive [int] has left its range after 32
    doublings, which is as far as the loop is followed. *)
Fixpoint stringToTypeFrom (steps : nat) (i : Z) (input : QByteArray)
    : option Z :=
  match steps with
  | O => None
  | S steps' =>
      if (i <=? EnumValue env)%Z then
        if sameIgnoringCase (typeToName env i) input then Some i
        else stringToTypeFrom steps' (Z.shiftl i 1) input
      else Some 0%Z
  end.

(** [stringToType]; [Node::None] is 0. *)
Definition stringToType (input : QByteArray) : option Z :=
  stringToTypeFrom 32 (MethodDeclaration env) input.

(** An [unsigned] value. *)
Definition uint (z : Z) : Z := (z mod 2 ^ 32)%Z.

(** The loop of [lookup] over the entries of [types]: the kinds, or the entry
    that is not the name of a kind. *)
Fixpoint parseTypes (entries : list QByteArray) (nodeTypes : Z)
    : option (Z + QByteArray) :=
  match entries with
  | [] => Some (inl nodeTypes)
  | type :: rest =>
      if decide (type = "") then parseTypes rest nodeTypes
      else
        match stringToType type with
        | None => None
        | Some t =>
            if decide (t = 0%Z) then Some (inr type)
            else parseTypes rest (uint (Z.lor nodeTypes t))
        end
  end.

(** [Daemon::lookup]. *)
Definition lookup (args : Args) (freeArgs : list QByteArray) (st : State)
    : option (Args * State) :=
  match parseTypes (split ","%char (toByteArray (value args "types"))) 0%Z with
  | None => None
  | Some (inr type) => Some (createResultMap ("Can't parse type " +:+ type), st)
  | Some (inl parsed) =>
      let nodeTypes :=
        if decide (parsed = 0%Z) then uint (Z.land (All env) (Z.lnot (Root env)))
        else parsed in
      let flags := if hasArg args "regexp" then uint (Z.lor 0 (RegExp env))
                   else 0%Z in
      Some (createResultMap (visitLookup env freeArgs flags nodeTypes),
            mkState (mTranslationUnits st) (disposed st) (addedFiles st)
              (loads st) (lookups st ++ [(freeArgs, flags, nodeTypes)]))
  end.

(** [Daemon::load]. *)
Definition load (freeArgs : list QByteArray) (st : State) : Args * State :=
  let filename := default "" (head freeArgs) in
  let filename :=
    if negb (isResolved env filename) then (resolve env filename).2
    else filename in
  if negb (isFile env filename) then (createResultMap "No filename specified", st)
  else
    match mTranslationUnits st !! filename with
    | Some 0%N => (createResultMap ("File already loading " +:+ filename), st)
    | found =>
        let released :=
          match found with
          | Some unit => disposed st ++ [unit]
          | None => disposed st
          end in
        (createResultMap "Loading",
         mkState (<[filename := 0%N]> (delete filename (mTranslationUnits st)))
           released (addedFiles st) (loads st ++ [filename]) (lookups st))
    end.

(** The claim about [lookupline] as it is stated: with the arguments given,
    a unit cached for the file and a valid cursor at the position, the result
    is the text for the location of the resolved cursor. *)
Definition lookupLine_as_claimed (args : Args) (st : State) : Prop :=
  let file := toByteArray (value args "file") in
  let file := if isResolved env file then (resolve env file).2 else file in
  let line := toInt (value args "line") in
  let column := toInt (value args "column") in
  let unit := default 0%N (mTranslationUnits st !! file) in
  let cursor := cursorAt env unit file line column in
  hasArg args "file" = true → hasArg args "line" = true →
  hasArg args "column" = true →
  isFile env file = true → line ≠ 0%Z → column ≠ 0%Z →
  unit ≠ 0%N → isValidCursor env cursor = true →
  lookupLine args st
  = createResultMap (symbolAt (instantiationLocation env (resolveCursor cursor))).

(** The path [load] works with. *)
Definition loadPath (freeArgs : list QByteArray) : Path :=
  let filename := default "" (head freeArgs) in
  if negb (isResolved env filename) then (resolve env filename).2 else filename.

(** What the claim about [load] says of a command: on the sentinel the
    message, the same cache and no new load; otherwise the old handle
    released, the sentinel in the cache and a load started. *)
Definition load_as_claimed (freeArgs : list QByteArray) (st : State) : Prop :=
  let filename := loadPath freeArgs in
  let result := (load freeArgs st).1 in
  let st' := (load freeArgs st).2 in
  if decide (mTranslationUnits st !! filename = Some 0%N) then
    result = createResultMap ("File already loading " +:+ filename)
    ∧ mTranslationUnits st' = mTranslationUnits st
    ∧ loads st' = loads st
  else
    disposed st'
    = disposed st ++ option_list (mTranslationUnits st !! filename)
    ∧ mTranslationUnits st' = <[filename := 0%N]> (mTranslationUnits st)
    ∧ loads st' = loads st ++ [filename].
End Handlers.

(** An example host.  Files: [/src/a.cpp], [/src/b.h] and a file with a long
    path; [a.cpp] resolves to [/src/a.cpp].  Cursors: 0 is the invalid
    cursor; 1 a call in [a.cpp] that refers to the declaration 3 in [b.h];
    2 a method definition whose canonical cursor is the declaration 4 in
    [b.h]; 5 a literal, which refers to nothing; 6 a call that refers to the
    declaration 7 in the file with the long path.  The kinds and their values
    are examples. *)
Definition longPath : Path := "/home/dev/project/src/widgets/mainwindow.h".

Definition exampleEnv : Env nat :=
  let files := ["/src/a.cpp"; "/src/b.h"; longPath] in
  let isFile p := bool_decide (p ∈ files) in
  mkEnv nat
    (String.prefix "/")
    (λ p, if isFile p then (true, p)
          else if decide (p = "a.cpp") then (true, "/src/a.cpp")
          else (false, p))
    isFile
    (λ _, true)
    bytesContain
    (λ _, 0%Z)
    (λ unit file line column,
       if decide (file = "/src/a.cpp") then
         match line with
         | 1%Z => 1
         | 2%Z => 2
         | 9%Z => 5
         | 12%Z => 6
         | _ => 0
         end
       else 0)
    (λ c, negb (c =? 0))
    (λ c, c =? 2)
    (λ c, match c with 2 => 4 | _ => c end)
    (λ c, match c with 1 => 3 | 5 => 0 | 6 => 7 | _ => c end)
    (λ c, match c with
          | 3 => ("/src/b.h", 3%N, 1%N)
          | 4 => ("/src/b.h", 7%N, 10%N)
          | 7 => (longPath, 120%N, 17%N)
          | _ => ("/src/a.cpp", 1%N, 1%N)
          end)
    2 512 16777215 1
    (λ t, match t with
          | 2%Z => "MethodDeclaration"
          | 4%Z => "MethodDefinition"
          | 8%Z => "MethodReference"
          | 16%Z => "Class"
          | 32%Z => "Struct"
          | 64%Z => "Namespace"
          | 128%Z => "VariableDeclaration"
          | 256%Z => "VariableReference"
          | 512%Z => "EnumValue"
          | _ => "Invalid"
          end)
    1
    (λ _ _ _, "").

Definition emptyState : State := mkState ∅ [] [] [] [].

(** Two units in the cache. *)
Definition twoUnits : State :=
  mkState {[ "/src/a.cpp" := 1%N; "/src/b.h" := 2%N ]} [] [] [] [].

(** A load in progress for a file that is no longer there. *)
Definition loadingGone : State :=
  mkState {[ "/gone.cpp" := 0%N ]} [] [] [] [].

Definition lineArgs (line : Z) : Args :=
  {[ "file" := QBytes "/src/a.cpp"; "line" := QInt line; "column" := QInt 5 ]}.

(** The same position, with the path as it was given to [load]. *)
Definition relativeArgs : Args :=
  {[ "file" := QBytes "a.cpp"; "line" := QInt 1; "column" := QInt 5 ]}.

(** The files of [exampleEnv] for a daemon that runs in [/src]: the path
    [a.cpp], which is not resolved, is a file as well. *)
Definition workingDirEnv : Env nat :=
  mkEnv nat (isResolved exampleEnv) (resolve exampleEnv)
    (λ p, isFile exampleEnv p || bool_decide (p = "a.cpp"))
    (rxIsValid exampleEnv) (rxContains exampleEnv) (bytesToInt exampleEnv)
    (cursorAt exampleEnv) (isValidCursor exampleEnv) (isCXXMethod exampleEnv)
    (getCanonicalCursor exampleEnv) (getCursorReferenced exampleEnv)
    (instantiationLocation exampleEnv) (MethodDeclaration exampleEnv)
    (EnumValue exampleEnv) (All exampleEnv) (Root exampleEnv)
    (typeToName exampleEnv) (RegExp exampleEnv) (visitLookup exampleEnv).

End Daemon.

(** ** Part IV.  ClangThread.cpp: the walk that fills the dependency table *)

Module IncludeWalk.
Import IncludeAudit.

(** [R] is [H] or is reached from [H] along [includes]. *)
Definition reachesOrIs (g : Deps) (H R : N) : Prop := R = H ∨ reaches g H R.

(** What a search for a need has done when it answers [false]: the set has
    grown, and every file it has added is not in [refs] and has all the files
    it includes in the set. *)
Definition explored (g : Deps) (refs seen seen' : gset N) : Prop :=
  (seen ⊆ seen')
  ∧ ∀ x, x ∈ seen' → x ∉ seen →
      (x ∉ refs) ∧ ∀ d, g !! x = Some d → includes d ⊆ seen'.

(** [mDependencies[F]->references[R][loc]], when all three are there. *)
Definition referenceAt (g : Deps) (F R : N) (loc : Location)
    : option Location :=
  match g !! F with
  | Some d =>
      match references d !! R with
      | Some refs => refs !! loc
      | None => None
      end
  | None => None
  end.

(** What the walk asks about a cursor.  [includedFileId] is the id that
    [Location::insertFile] gives the resolved name of the included file, when
    [clang_getIncludedFile] and the name are not null. *)
Record Walker (CXCursor : Type) := mkWalker {
  nullCursor : CXCursor;
  equalCursors : CXCursor → CXCursor → bool;
  isInclusionDirective : CXCursor → bool;
  isNamespace : CXCursor → bool;
  includedFileId : CXCursor → option N;
  getCursorReferenced : CXCursor → CXCursor;
  createLocation : CXCursor → option Location
}.
Arguments nullCursor {_}.
Arguments equalCursors {_}.
Arguments isInclusionDirective {_}.
Arguments isNamespace {_}.
Arguments includedFileId {_}.
Arguments getCursorReferenced {_}.
Arguments createLocation {_}.

Section Walk.
Context {CXCursor : Type} (clang : Walker CXCursor).

(** [ClangThread::handleInclude(loc, cursor)]. *)
Definition handleIncludeOf (loc : Location) (cursor : CXCursor) (g : Deps)
    : Deps :=
  match includedFileId clang cursor with
  | Some fileId => handleInclude loc.1.1 fileId g
  | None => g
  end.

(** [ClangThread::handleReference(loc, ref)]. *)
Definition handleReferenceOf (loc : Location) (ref : CXCursor) (g : Deps)
    : option Deps :=
  if isNamespace clang ref then Some g
  else handleReference loc (createLocation clang ref) g.

(** [ClangThread::checkIncludes(location, cursor)]. *)
Definition checkIncludesAt (location : Location) (cursor : CXCursor)
    (g : Deps) : option Deps :=
  if isInclusionDirective clang cursor
  then Some (handleIncludeOf location cursor g)
  else
    let ref := getCursorReferenced clang cursor in
    if negb (equalCursors clang cursor (nullCursor clang))
       && negb (equalCursors clang cursor ref)
    then handleReferenceOf location ref g
    else Some g.

(** The calls of [checkIncludes(location, cursor)] that [visit] makes, one
    per cursor with a location, in the order of the walk. *)
Fixpoint walk (visited : list (Location * CXCursor)) (g : Deps)
    : option Deps :=
  match visited with
  | [] => Some g
  | (location, cursor) :: rest =>
      match checkIncludesAt location cursor g with
      | Some g' => walk rest g'
      | None => None
      end
  end.
End Walk.

(** An example walk over [a.cpp] (file 1), which includes [b.h] (file 2) and
    calls a function that [b.h] declares: cursor 1 is the inclusion
    directive, cursor 2 the call, cursor 3 the declaration. *)
Definition exampleWalker : Walker nat :=
  mkWalker nat 0 Nat.eqb
    (λ c, c =? 1) (λ _, false)
    (λ c, match c with 1 => Some 2%N | _ => None end)
    (λ c, match c with 2 => 3 | _ => c end)
    (λ c, match c with
          | 1 => Some (1, 1, 1)%N
          | 2 => Some (1, 4, 3)%N
          | 3 => Some (2, 7, 6)%N
          | _ => None
          end).

Definition exampleVisited : list (Location * nat) :=
  [((1, 1, 1)%N, 1); ((1, 4, 3)%N, 2); ((2, 7, 6)%N, 3)].

End IncludeWalk.

(** ** Part V.  ClangThread.cpp: the walk that dumps the cursors *)

Module AstWalk.
Import IncludeAudit AstDump.

Section Visit.
Context {CXCursor : Type} (clang : Clang CXCursor).

(** The calls [addCursor(cursor, location)] that [visit] makes for a
    [VisitAST] query, one per cursor with a location, in the order of the
    walk; [visit] does not use what they return. *)
Fixpoint dumpAll (fuel : nat) (visited : list (CXCursor * Location))
    : M unit :=
  match visited with
  | [] => ret tt
  | (cursor, location) :: rest =>
      addCursor clang fuel cursor (Some location);; dumpAll fuel rest
  end.
End Visit.

(** The front end of [exampleClang], except that every cursor is its own
    referenced cursor, which is what libclang answers for a declaration. *)
Definition declarationClang : Clang nat :=
  mkClang nat 0 Nat.eqb (createLocation exampleClang)
    (getCursorUSR exampleClang) (getCursorExtent exampleClang) (λ c, c)
    (getCursorKindSpelling exampleClang) (linkageSpelling exampleClang)
    (getCursorSpelling exampleClang) (getCursorDisplayName exampleClang)
    (getMangling exampleClang) (getTemplateCursorKind exampleClang)
    (getCursorLexicalParent exampleClang)
    (getCursorSemanticParent exampleClang) (getCanonicalCursor exampleClang)
    (isCursorDefinition exampleClang) (getCursorDefinition exampleClang)
    (getSpecializedCursorTemplate exampleClang)
    (getOverriddenCursors exampleClang) (flagDefinition exampleClang).

(** The front end of [exampleClang] with one more cursor, 5: an expression
    in [f], with a location and no USR, which is its own canonical cursor. *)
Definition expressionClang : Clang nat :=
  mkClang nat 0 Nat.eqb
    (λ c, if c =? 5 then Some (1, 2, 40)%N else createLocation exampleClang c)
    (getCursorUSR exampleClang) (getCursorExtent exampleClang)
    (getCursorReferenced exampleClang)
    (getCursorKindSpelling exampleClang) (linkageSpelling exampleClang)
    (getCursorSpelling exampleClang) (getCursorDisplayName exampleClang)
    (getMangling exampleClang) (getTemplateCursorKind exampleClang)
    (λ c, if c =? 5 then 4 else getCursorLexicalParent exampleClang c)
    (λ c, if c =? 5 then 4 else getCursorSemanticParent exampleClang c)
    (getCanonicalCursor exampleClang)
    (isCursorDefinition exampleClang) (getCursorDefinition exampleClang)
    (getSpecializedCursorTemplate exampleClang)
    (getOverriddenCursors exampleClang) (flagDefinition exampleClang).

(** The walk over the namespace, the struct and the definition of [f]. *)
Definition exampleDump : list (nat * Location) :=
  [(2, (1, 1, 11)%N); (3, (1, 1, 22)%N); (4, (1, 2, 25)%N)].

End AstWalk.

(** ** Part VI.  Daemon.cpp: the dispatch and the other handlers *)

Module DaemonCommands.
Import Daemon.

(** The calls that the handlers of this part make on the two threads and on
    the application: [mParseThread.abort()], [mVisitThread.quit()], the two
    [wait()]s, [QTimer::singleShot(ms, ..., SLOT(quit()))],
    [mVisitThread.printTree()] and
    [mParseThread.addMakefile(makefile, accept, reject)]. *)
Inductive Call :=
  | AbortParse
  | QuitVisit
  | WaitParse
  | WaitVisit
  | QuitLater (ms : nat)
  | PrintTree
  | AddMakefile (makefile : Path) (accept reject : string).

(** [syntax()]. *)
Definition syntax : Args :=
  createResultMap
    ("Syntax: rtags --command=command [--argument1, --argument2=foo, ...]"
     +:+ newline
     +:+ "commands: syntax|quit|add|remove|lookupline|makefile|daemonize|files|lookup"
     +:+ newline).

Section Commands.
Context {CXCursor : Type} (env : Env CXCursor).

(** [mVisitThread.files()], a [QSet<Path>], and the order in which a [QSet]
    is iterated, which the source does not fix. *)
Variable files : gset Path.
Variable setOrder : gset Path → list Path.

(** [Daemon::onFileParsed]. *)
Definition onFileParsed (path : Path) (translationUnit : CXTranslationUnit)
    (st : State) : State :=
  let released :=
    match mTranslationUnits st !! path with
    | Some old => disposed st ++ [old]
    | None => disposed st
    end in
  mkState (<[path := translationUnit]> (mTranslationUnits st)) released
    (addedFiles st) (loads st) (lookups st).

(** The pattern of [fileList] and whether it is a regular expression. *)
Definition filePattern (args : Args) : bool * QByteArray :=
  let pattern := toByteArray (value args "regexp") in
  if decide (pattern = "") then (false, toByteArray (value args "match"))
  else (true, pattern).

(** The set [out] of [fileList]; [matches(files, t)] keeps the paths that
    [contains(path, t)] accepts. *)
Definition listedFiles (args : Args) : gset Path :=
  let '(regexp, pattern) := filePattern args in
  if decide (pattern = "") then files
  else filter (λ path, matchesKey env regexp pattern path = true) files.

(** [Daemon::fileList]. *)
Definition fileList (args : Args) : Args :=
  createResultMap (joined (setOrder (listedFiles args))).

(** [Daemon::addMakefile]. *)
Definition addMakefile (dashArgs : Args) (freeArgs : list QByteArray)
    : Args * list Call :=
  match freeArgs with
  | [] => (createResultMap "No Makefile passed", [])
  | first :: _ =>
      let makefile :=
        if negb (isResolved env first) then (resolve env first).2
        else first in
      if negb (isFile env makefile)
      then (createResultMap ("Makefile does not exist: " +:+ makefile), [])
      else
        (createResultMap "Added makefile",
         [AddMakefile makefile (toByteArray (value dashArgs "accept"))
            (toByteArray (value dashArgs "reject"))])
  end.

(** [Daemon::runCommand]; [order] is the order in which the cache is
    iterated, as for [removeSourceFile]. *)
Definition runCommand (order : list Path) (dashArgs : Args)
    (freeArgs : list QByteArray) (st : State)
    : option (Args * State * list Call) :=
  let cmd := toByteArray (value dashArgs "command") in
  if decide (cmd = "") then
    Some (createResultMap "No command or path specified", st, [])
  else if decide (cmd = "syntax") then Some (syntax, st, [])
  else if decide (cmd = "quit") then
    Some (createResultMap "quitting", st,
          [AbortParse; QuitVisit; WaitParse; WaitVisit; QuitLater 100])
  else if decide (cmd = "add") then
    let '(result, st') := addSourceFile env dashArgs st in
    Some (result, st', [])
  else if decide (cmd = "remove") then
    match removeSourceFile env order dashArgs freeArgs st with
    | Some (result, st') => Some (result, st', [])
    | None => None
    end
  else if decide (cmd = "printtree") then
    Some (createResultMap "Done", st, [PrintTree])
  else if decide (cmd = "lookupline") then
    Some (lookupLine env dashArgs st, st, [])
  else if decide (cmd = "makefile") then
    let '(result, calls) := addMakefile dashArgs freeArgs in
    Some (result, st, calls)
  else if decide (cmd = "files") then Some (fileList dashArgs, st, [])
  else if decide (cmd = "lookup") then
    match lookup env dashArgs freeArgs st with
    | Some (result, st') => Some (result, st', [])
    | None => None
    end
  else if decide (cmd = "load") then
    let '(result, st') := load env freeArgs st in
    Some (result, st', [])
  else Some (createResultMap "Unknown command", st, []).
End Commands.

(** The kinds that the entries of a [types] argument name. *)
Definition namedKinds {CXCursor} (env : Env CXCursor)
    (entries : list QByteArray) : list Z :=
  omap (λ e, if decide (e = "") then None else stringToType env e) entries.

End DaemonCommands.

(** * Properties *)

(** ** Part I.  The include auditor *)

Module IncludeAuditFacts.
Import IncludeAudit.

(** *** Facts about the two searches *)

Section AnyChild.
Context (g : Deps).

Lemma anyChild_app visit xs ys seen :
  anyChild g visit (xs ++ ys) seen =
  match anyChild g visit xs seen with
  | Some (false, seen') => anyChild g visit ys seen'
  | other => other
  end.
Proof.
  revert seen; induction xs as [|x xs IH]; intros seen; simpl; [done|].
  destruct (g !! x) as [d|]; [|done].
  destruct (visit d seen) as [[[] s]|]; auto.
Qed.

(** A loop whose every visit returns also returns, and the set only grows. *)
Lemma anyChild_total (visit : Dep → gset N → Outcome) (P : gset N → Prop)
    children seen :
  (∀ c, c ∈ children → is_Some (g !! c)) →
  (∀ c d s, c ∈ children → g !! c = Some d → P s →
     ∃ b s', visit d s = Some (b, s') ∧ P s' ∧ s ⊆ s') →
  P seen →
  ∃ b seen', anyChild g visit children seen = Some (b, seen') ∧ seen ⊆ seen'.
Proof.
  revert seen; induction children as [|c rest IH]; intros seen Hin Hvisit HP.
  { exists false, seen. done. }
  simpl. destruct (Hin c) as [d Hd]; [left|]. rewrite Hd.
  destruct (Hvisit c d seen) as (b & s' & -> & HP' & Hsub); [left|done|done|].
  destruct b; [by eauto|].
  destruct (IH s') as (b & s'' & -> & Hsub').
  - intros; apply Hin; by right.
  - intros c' d' s0 Hc'; apply Hvisit; by right.
  - done.
  - exists b, s''; split; [done|set_solver].
Qed.
End AnyChild.

Section Searches.
Context (g : Deps).

Lemma validateHasInclude_S fuel ref cur seen :
  validateHasInclude (S fuel) g ref cur seen =
  if decide (ref = 0%N) then None
  else if decide (ref ∈ includes cur) then Some (true, seen)
  else if decide (ref ∈ seen) then Some (false, seen)
  else anyChild g (validateHasInclude fuel g ref)
         (elements (includes cur)) ({[ref]} ∪ seen).
Proof. reflexivity. Qed.

Lemma validateNeedsInclude_S fuel source header seen :
  validateNeedsInclude (S fuel) g source header seen =
  if decide (fileId header ∈ seen) then Some (false, seen)
  else if decide (fileId header ∈ dom (references source))
       then Some (true, {[fileId header]} ∪ seen)
       else anyChild g (validateNeedsInclude fuel g source)
              (elements (includes header)) ({[fileId header]} ∪ seen).
Proof. reflexivity. Qed.

Lemma wf_lookup F d :
  wf g → g !! F = Some d →
  fileId d = F ∧ (∀ H, H ∈ includes d → is_Some (g !! H))
  ∧ 0%N ∉ dom (references d).
Proof.
  intros Hwf Hd. destruct (Hwf F d Hd) as (Hid & Hcl & Hnz).
  split_and!; [done| |done]. intros A HA. by apply Hcl.
Qed.

(** Once [ref] is in the set, a call answers from [cur->includes] alone. *)
Lemma validateHasInclude_seen fuel ref cur seen :
  ref ≠ 0%N → ref ∈ seen →
  validateHasInclude (S fuel) g ref cur seen
  = Some (bool_decide (ref ∈ includes cur), seen).
Proof.
  intros Hnz Hseen. rewrite validateHasInclude_S.
  destruct (decide (ref = 0%N)); [done|].
  destruct (decide (ref ∈ includes cur)).
  - by rewrite bool_decide_eq_true_2.
  - rewrite bool_decide_eq_false_2; [|done]. by destruct (decide (ref ∈ seen)).
Qed.

Lemma anyChild_has_seen fuel ref children seen :
  ref ≠ 0%N → ref ∈ seen →
  (∀ c, c ∈ children → is_Some (g !! c)) →
  anyChild g (validateHasInclude (S fuel) g ref) children seen
  = Some (existsb (includesOf g ref) children, seen).
Proof.
  intros Hnz Hseen. induction children as [|c rest IH]; intros Hin; [done|].
  cbn [anyChild existsb]. unfold includesOf at 1.
  destruct (Hin c) as [d Hd]; [left|]. rewrite Hd.
  rewrite validateHasInclude_seen by done.
  destruct (bool_decide (ref ∈ includes d)); [done|].
  apply IH. intros; apply Hin; by right.
Qed.

(** With a budget of two calls the search returns, and it answers exactly
    whether [ref] is included by [cur] or by a file [cur] includes. *)
Lemma validateHasInclude_two fuel ref cur :
  ref ≠ 0%N → (∀ H, H ∈ includes cur → is_Some (g !! H)) →
  ∃ seen', validateHasInclude (S (S fuel)) g ref cur ∅
           = Some (includedWithinTwo g ref cur, seen').
Proof.
  intros Hnz Hcl. unfold includedWithinTwo.
  rewrite validateHasInclude_S.
  destruct (decide (ref = 0%N)); [done|].
  destruct (decide (ref ∈ includes cur)).
  { rewrite bool_decide_eq_true_2 by done. by eexists. }
  rewrite bool_decide_eq_false_2 by done.
  destruct (decide (ref ∈ (∅ : gset N))); [set_solver|].
  eexists. cbn [orb]. apply anyChild_has_seen; [done|set_solver|].
  intros c Hc. apply Hcl. by apply elem_of_elements.
Qed.

(** The search for a need returns whenever its budget exceeds the number of
    files not yet in the set; the set only grows. *)
Lemma validateNeedsInclude_total fuel source header seen :
  wf g → g !! fileId header = Some header →
  size (dom g ∖ seen) < fuel →
  ∃ b seen', validateNeedsInclude fuel g source header seen = Some (b, seen')
             ∧ seen ⊆ seen'.
Proof.
  intros Hwf. revert header seen.
  induction fuel as [|fuel IH]; intros header seen Hh Hsize; [lia|].
  rewrite validateNeedsInclude_S.
  destruct (decide (fileId header ∈ seen)); [by eauto|].
  destruct (decide (fileId header ∈ dom (references source))).
  { eexists _, _; split; [done|set_solver]. }
  assert (size (dom g ∖ ({[fileId header]} ∪ seen)) < fuel) as Hless.
  { assert (dom g ∖ ({[fileId header]} ∪ seen) ⊂ dom g ∖ seen) as Hsub.
    { split; [set_solver|]. intros Hsup.
      assert (fileId header ∈ dom g) as Hdom by (apply elem_of_dom; eauto).
      specialize (Hsup (fileId header)). set_solver. }
    apply subset_size in Hsub. lia. }
  destruct (wf_lookup _ _ Hwf Hh) as (_ & Hcl & _).
  destruct (anyChild_total g (validateNeedsInclude fuel g source)
              (λ s, {[fileId header]} ∪ seen ⊆ s)
              (elements (includes header)) ({[fileId header]} ∪ seen))
    as (b & s' & Hrun & Hsub); [| |done|].
  - intros c Hc. apply Hcl. by apply elem_of_elements.
  - intros c d s Hc Hd Hs.
    destruct (wf_lookup _ _ Hwf Hd) as (Hid & _ & _).
    destruct (IH d s) as (b & s' & Hrun & Hsub).
    + by rewrite Hid.
    + eapply Nat.le_lt_trans; [|exact Hless].
      apply subseteq_size. set_solver.
    + exists b, s'. split_and!; [done|set_solver|done].
  - exists b, s'. split; [done|set_solver].
Qed.

(** The budget is only a bound: an answer stays the same with more of it. *)
Lemma anyChild_mono (visit visit' : Dep → gset N → Outcome) children seen r :
  (∀ d s r', visit d s = Some r' → visit' d s = Some r') →
  anyChild g visit children seen = Some r →
  anyChild g visit' children seen = Some r.
Proof.
  intros Hle. revert seen. induction children as [|c rest IH]; intros seen;
    simpl; [done|].
  destruct (g !! c) as [d|]; [|done].
  destruct (visit d seen) as [[b s]|] eqn:Hv; [|done].
  rewrite (Hle _ _ _ Hv). destruct b; [done|]. apply IH.
Qed.

Lemma validateNeedsInclude_mono fuel source header seen r :
  validateNeedsInclude fuel g source header seen = Some r →
  validateNeedsInclude (S fuel) g source header seen = Some r.
Proof.
  revert header seen r. induction fuel as [|fuel IH]; intros header seen r;
    [done|].
  rewrite (validateNeedsInclude_S (S fuel)), (validateNeedsInclude_S fuel).
  repeat case_decide; try done. apply anyChild_mono. intros d s r'. apply IH.
Qed.

Lemma validateHasInclude_mono fuel ref cur seen r :
  validateHasInclude fuel g ref cur seen = Some r →
  validateHasInclude (S fuel) g ref cur seen = Some r.
Proof.
  revert cur seen r. induction fuel as [|fuel IH]; intros cur seen r; [done|].
  rewrite (validateHasInclude_S (S fuel)), (validateHasInclude_S fuel).
  repeat case_decide; try done. apply anyChild_mono. intros d s r'. apply IH.
Qed.

(** A header from which the source takes a symbol is needed at once. *)
Lemma validateNeedsInclude_referenced fuel source header :
  fileId header ∈ dom (references source) →
  validateNeedsInclude (S fuel) g source header ∅
  = Some (true, {[fileId header]} ∪ ∅).
Proof.
  intros Href. rewrite validateNeedsInclude_S.
  destruct (decide (fileId header ∈ (∅ : gset N))); [set_solver|].
  by destruct (decide (fileId header ∈ dom (references source))).
Qed.
End Searches.

(** *** The tables that the walk builds *)

Lemma wf_insert (g : Deps) F d :
  wf g → fileId d = F →
  (∀ H, H ∈ includes d → H = F ∨ is_Some (g !! H)) →
  0%N ∉ dom (references d) →
  wf (<[F := d]> g).
Proof.
  intros Hwf Hid Hcl Hnz K x Hx.
  assert (∀ H, is_Some (g !! H) → is_Some (<[F := d]> g !! H)) as Hgrow.
  { intros H HH. destruct (decide (F = H)) as [->|Hne].
    - rewrite lookup_insert_eq. eauto.
    - by rewrite lookup_insert_ne. }
  destruct (decide (F = K)) as [->|Hne].
  - rewrite lookup_insert_eq in Hx. simplify_eq. split_and!; [done| |done].
    intros H HH. destruct (Hcl H HH) as [->|HH']; [|by apply Hgrow].
    rewrite lookup_insert_eq. eauto.
  - rewrite lookup_insert_ne in Hx by done.
    destruct (wf_lookup g K x Hwf Hx) as (Hidx & Hclx & Hnzx).
    split_and!; [done| |done]. intros H HH. by apply Hgrow, Hclx.
Qed.

Lemma nodeAt_wf (g : Deps) F :
  wf g →
  fileId (nodeAt g F) = F
  ∧ (∀ H, H ∈ includes (nodeAt g F) → is_Some (g !! H))
  ∧ 0%N ∉ dom (references (nodeAt g F)).
Proof.
  intros Hwf. unfold nodeAt. destruct (g !! F) as [d|] eqn:Hd; simpl.
  - by apply wf_lookup.
  - split_and!; [done|set_solver|set_solver].
Qed.

Lemma built_empty : built ∅.
Proof. split; [|done]. intros F d Hd. by rewrite lookup_empty in Hd. Qed.

(** [handleInclude] keeps the table well formed. *)
Lemma built_handleInclude fromFile included (g : Deps) :
  built g → fromFile ≠ 0%N → included ≠ 0%N →
  built (handleInclude fromFile included g).
Proof.
  intros [Hwf Hzero] Hfrom Hinc. unfold handleInclude.
  set (g1 := <[fromFile := nodeAt g fromFile]> g).
  set (g2 := <[included := nodeAt g1 included]> g1).
  assert (wf g1) as Hwf1.
  { destruct (nodeAt_wf g fromFile Hwf) as (Hid & Hcl & Hnz).
    apply wf_insert; auto. }
  assert (wf g2) as Hwf2.
  { destruct (nodeAt_wf g1 included Hwf1) as (Hid & Hcl & Hnz).
    apply wf_insert; auto. }
  assert (is_Some (g2 !! included)) as Hnode.
  { unfold g2. rewrite lookup_insert_eq. eauto. }
  destruct (nodeAt_wf g2 fromFile Hwf2) as (Hid & Hcl & Hnz).
  split.
  - apply wf_insert; [done..| |done]. simpl.
    intros H [->%elem_of_singleton|HH]%elem_of_union; auto.
  - rewrite lookup_insert_ne by done. unfold g2, g1.
    by rewrite !lookup_insert_ne.
Qed.

(** [handleReference], when its asserts hold, keeps the table well formed. *)
Lemma built_handleReference loc refLoc (g g' : Deps) :
  built g → handleReference loc refLoc g = Some g' → built g'.
Proof.
  intros [Hwf Hzero] Hrun. unfold handleReference in Hrun.
  destruct refLoc as [refLoc|]; [|by simplify_eq].
  destruct (decide (refLoc.1.1 = loc.1.1)); [by simplify_eq|].
  destruct (g !! loc.1.1) as [dep|] eqn:Hdep; [|done].
  destruct (g !! refLoc.1.1) as [refDep|] eqn:Href; [|done].
  simplify_eq.
  destruct (wf_lookup g _ _ Hwf Hdep) as (Hid & Hcl & Hnz).
  destruct (wf_lookup g _ _ Hwf Href) as (Hidr & _ & _).
  split.
  - apply wf_insert; simpl; [done|done|by auto|].
    rewrite dom_insert_L, Hidr.
    intros [Heq%elem_of_singleton|?]%elem_of_union; [|done].
    rewrite <- Heq in Href. congruence.
  - rewrite lookup_insert_ne; [done|]. intros Heq. rewrite Heq in Hdep.
    congruence.
Qed.

(** *** Facts about [checkIncludes] *)

Lemma elem_of_concat_mapM {A B} (f : A → option (list B)) l k y :
  mapM f l = Some k →
  y ∈ concat k ↔ ∃ x ys, x ∈ l ∧ f x = Some ys ∧ y ∈ ys.
Proof.
  intros Hk. apply mapM_Some_1 in Hk.
  induction Hk as [|x ys l k Hx _ IH]; simpl.
  { split; [by intros ?%elem_of_nil|]. by intros (x & ys & ?%elem_of_nil & _). }
  rewrite elem_of_app, IH. split.
  - intros [Hy|(x' & ys' & Hin & Hf & Hy)].
    + exists x, ys. split_and!; [left|done|done].
    + exists x', ys'. split_and!; [by right|done|done].
  - intros (x' & ys' & Hin & Hf & Hy).
    apply elem_of_cons in Hin as [->|Hin].
    + left. congruence.
    + right. eauto.
Qed.

Section Audit.
Context (path : N → string) (isSystem : string → bool) (g : Deps).

(** The auditor returns on every well-formed table, given one unit of budget
    per file and one more. *)
Lemma checkIncludes_total fuel :
  wf g → size g < fuel → is_Some (checkIncludes path isSystem fuel g).
Proof.
  intros Hwf Hfuel. unfold checkIncludes.
  apply fmap_is_Some, mapM_is_Some, Forall_forall.
  intros [F d] HFd%elem_of_map_to_list. unfold compose, auditFile; simpl.
  destruct (isSystem (path F)); [done|].
  destruct (wf_lookup g F d Hwf HFd) as (Hid & Hcl & Hnz).
  assert (2 ≤ fuel) as Htwo.
  { assert (size g ≠ 0); [|lia].
    intros Hz%map_size_empty_inv. by rewrite Hz in HFd. }
  assert (is_Some (mapM (auditInclude fuel g F d) (elements (includes d))))
    as [unneeded ->].
  { apply mapM_is_Some, Forall_forall. intros H HH%elem_of_elements.
    unfold compose, auditInclude. destruct (Hcl H HH) as [h Hh]. rewrite Hh.
    destruct (wf_lookup g H h Hwf Hh) as (Hidh & _ & _).
    destruct (validateNeedsInclude_total g fuel d h ∅ Hwf) as (b & s & -> & _).
    - by rewrite Hidh.
    - rewrite difference_empty_L, size_dom. lia.
    - by destruct b. }
  assert (is_Some (mapM (auditReference path fuel g F d)
                     (map_to_list (references d)))) as [missing ->]; [|done].
  apply mapM_is_Some, Forall_forall. intros [R refs] HR%elem_of_map_to_list.
  unfold compose, auditReference; simpl.
  destruct (exempted (path R)); [done|].
  destruct fuel as [|[|fuel]]; [lia|lia|].
  destruct (validateHasInclude_two g fuel R d) as [s ->]; [|done|].
  - intros ->. apply Hnz, elem_of_dom. eauto.
  - by destruct (includedWithinTwo g R d).
Qed.

(** When [checkIncludes] writes "F includes H for no reason". *)
Lemma checkIncludes_no_reason fuel msgs F H :
  checkIncludes path isSystem fuel g = Some msgs →
  IncludesForNoReason F H ∈ msgs →
  ∃ d A h seen, g !! F = Some d ∧ A ∈ includes d ∧ g !! A = Some h
    ∧ fileId h = H ∧ validateNeedsInclude fuel g d h ∅ = Some (false, seen).
Proof.
  unfold checkIncludes. intros Hrun Hin.
  apply fmap_Some in Hrun as (written & Hrun & ->).
  apply (elem_of_concat_mapM _ _ _ _ Hrun) in Hin
    as ([F' d] & ys & HFd%elem_of_map_to_list & Hfile & Hin).
  unfold auditFile in Hfile; simpl in Hfile.
  destruct (isSystem (path F')); [simplify_eq; by apply elem_of_nil in Hin|].
  destruct (mapM (auditInclude fuel g F' d) _) as [unneeded|] eqn:Hun; [|done].
  destruct (mapM (auditReference path fuel g F' d) _) as [missing|] eqn:Hmi;
    [|done].
  simplify_eq. apply elem_of_app in Hin as [Hin|Hin].
  - apply (elem_of_concat_mapM _ _ _ _ Hun) in Hin
      as (A & zs & HA%elem_of_elements & Hinc & Hin).
    unfold auditInclude in Hinc.
    destruct (g !! A) as [h|] eqn:Hh; [|done].
    destruct (validateNeedsInclude fuel g d h ∅) as [[[] seen]|] eqn:Hv;
      simplify_eq; [by apply elem_of_nil in Hin|].
    apply list_elem_of_singleton in Hin. simplify_eq.
    by exists d, A, h, seen.
  - apply (elem_of_concat_mapM _ _ _ _ Hmi) in Hin as ([R refs] & zs & _ & Href & Hin).
    unfold auditReference in Href; simpl in Href.
    destruct (exempted (path R)); [simplify_eq; by apply elem_of_nil in Hin|].
    destruct (validateHasInclude fuel g R d ∅) as [[[] seen]|];
      simplify_eq; [by apply elem_of_nil in Hin|].
    by apply list_elem_of_singleton in Hin.
Qed.

(** When [checkIncludes] writes "F should include R": exactly when [F]
    references [R], [R] is not exempted, and [R] is included neither by [F]
    nor by a file that [F] includes. *)
Lemma checkIncludes_should_include fuel msgs F R reasons :
  wf g → size g < fuel →
  checkIncludes path isSystem fuel g = Some msgs →
  ShouldInclude F R reasons ∈ msgs ↔
  ∃ d refs, g !! F = Some d ∧ isSystem (path F) = false
    ∧ references d !! R = Some refs ∧ reasons = map_to_list refs
    ∧ exempted (path R) = false ∧ includedWithinTwo g R d = false.
Proof.
  intros Hwf Hfuel Hrun. unfold checkIncludes in Hrun.
  apply fmap_Some in Hrun as (written & Hrun & ->).
  rewrite (elem_of_concat_mapM _ _ _ _ Hrun). split.
  - intros ([F' d] & ys & HFd%elem_of_map_to_list & Hfile & Hin).
    unfold auditFile in Hfile; simpl in Hfile.
    destruct (isSystem (path F')) eqn:Hsys;
      [simplify_eq; by apply elem_of_nil in Hin|].
    destruct (mapM (auditInclude fuel g F' d) _) as [unneeded|] eqn:Hun; [|done].
    destruct (mapM (auditReference path fuel g F' d) _) as [missing|] eqn:Hmi;
      [|done].
    simplify_eq. apply elem_of_app in Hin as [Hin|Hin].
    { apply (elem_of_concat_mapM _ _ _ _ Hun) in Hin as (A & zs & _ & Hinc & Hin).
      unfold auditInclude in Hinc. destruct (g !! A) as [h|]; [|done].
      destruct (validateNeedsInclude fuel g d h ∅) as [[[] seen]|];
        simplify_eq; [by apply elem_of_nil in Hin|].
      by apply list_elem_of_singleton in Hin. }
    apply (elem_of_concat_mapM _ _ _ _ Hmi) in Hin
      as ([R' refs] & zs & HR%elem_of_map_to_list & Href & Hin).
    unfold auditReference in Href; simpl in Href.
    destruct (exempted (path R')) eqn:Hex;
      [simplify_eq; by apply elem_of_nil in Hin|].
    destruct (wf_lookup g F' d Hwf HFd) as (_ & Hcl & Hnz).
    assert (R' ≠ 0%N) as HR0 by (intros ->; apply Hnz, elem_of_dom; eauto).
    destruct fuel as [|[|fuel]].
    { lia. }
    { assert (size g ≠ 0); [|lia].
      intros Hz%map_size_empty_inv. by rewrite Hz in HFd. }
    destruct (validateHasInclude_two g fuel R' d HR0 Hcl) as [s Hs].
    rewrite Hs in Href.
    destruct (includedWithinTwo g R' d) eqn:Htwo;
      simplify_eq; [by apply elem_of_nil in Hin|].
    apply list_elem_of_singleton in Hin. simplify_eq.
    by exists d, refs.
  - intros (d & refs & HFd & Hsys & HR & -> & Hex & Htwo).
    destruct (wf_lookup g F d Hwf HFd) as (_ & Hcl & Hnz).
    assert (R ≠ 0%N) as HR0 by (intros ->; apply Hnz, elem_of_dom; eauto).
    assert (is_Some (auditFile path isSystem fuel g (F, d))) as [ys Hys].
    { apply mk_is_Some, mapM_is_Some_1 in Hrun.
      rewrite Forall_forall in Hrun. by apply Hrun, elem_of_map_to_list. }
    exists (F, d), ys. split_and!; [by apply elem_of_map_to_list|done|].
    unfold auditFile in Hys; simpl in Hys. rewrite Hsys in Hys.
    destruct (mapM (auditInclude fuel g F d) _) as [unneeded|]; [|done].
    destruct (mapM (auditReference path fuel g F d) _) as [missing|] eqn:Hmi;
      [|done].
    simplify_eq. apply elem_of_app; right.
    apply (elem_of_concat_mapM _ _ _ _ Hmi).
    exists (R, refs), [ShouldInclude F R (map_to_list refs)].
    split_and!; [by apply elem_of_map_to_list| |left].
    unfold auditReference; simpl. rewrite Hex.
    destruct fuel as [|[|fuel]].
    { lia. }
    { assert (size g ≠ 0); [|lia].
      intros Hz%map_size_empty_inv. by rewrite Hz in HFd. }
    destruct (validateHasInclude_two g fuel R d HR0 Hcl) as [s ->].
    by rewrite Htwo.
Qed.

(** What the search sees is reachable. *)
Lemma includedWithinTwo_reaches F d R :
  g !! F = Some d → includedWithinTwo g R d = true → reaches g F R.
Proof.
  intros HFd [Hdir|Hvia]%orb_true_iff.
  - apply bool_decide_eq_true in Hdir. by eapply reaches_direct.
  - apply existsb_exists in Hvia as (A & HA & Hinc).
    apply list_elem_of_In, elem_of_elements in HA.
    unfold includesOf in Hinc. destruct (g !! A) as [a|] eqn:Ha; [|done].
    apply bool_decide_eq_true in Hinc.
    eapply reaches_step; [done..|]. by eapply reaches_direct.
Qed.

(** The direction the specification spells out: a referenced file that no
    chain of includes reaches is reported. *)
Lemma unreachable_is_reported fuel msgs F d R refs :
  wf g → size g < fuel →
  checkIncludes path isSystem fuel g = Some msgs →
  g !! F = Some d → isSystem (path F) = false →
  references d !! R = Some refs → exempted (path R) = false →
  ¬ reaches g F R →
  ShouldInclude F R (map_to_list refs) ∈ msgs.
Proof.
  intros Hwf Hfuel Hrun HFd Hsys HR Hex Hno.
  apply (checkIncludes_should_include fuel msgs F R _ Hwf Hfuel Hrun).
  exists d, refs. split_and!; try done.
  destruct (includedWithinTwo g R d) eqn:Htwo; [|done].
  destruct Hno. by eapply includedWithinTwo_reaches.
Qed.
End Audit.

Lemma wf_chain4 : wf chain4.
Proof. by apply (bool_decide_unpack _). Qed.

(** C1 (claim: "F should include R" is written if and only if no chain of
    includes leads from F to R).  The search puts [ref] in its set where the
    sibling search puts the file it visits, so it stops below the files that
    F includes: in [chain4] file 4 is reached from file 1 through files 2 and
    3, and the report for (1, 4) is written all the same. *)
Theorem should_include_written_for_reachable_file :
  wf chain4
  ∧ reaches chain4 1 4
  ∧ underUsr (srcPath 1) = false
  ∧ exempted (srcPath 4) = false
  ∧ validateHasInclude 5 chain4 4 (mkDep 1 {[2%N]}
      {[ 4%N := {[ (1, 10, 5)%N := (4, 3, 1)%N ]} ]}) ∅ = Some (false, {[4%N]})
  ∧ checkIncludes srcPath underUsr 5 chain4
    = Some [IncludesForNoReason 2 3; IncludesForNoReason 3 4;
            ShouldInclude 1 4 [((1, 10, 5), (4, 3, 1))%N]].
Proof.
  split_and!; [exact wf_chain4| |done|done|by vm_compute|by vm_compute].
  eapply reaches_step with (A := 2%N); [done|set_solver|].
  eapply reaches_step with (A := 3%N); [done|set_solver|].
  eapply reaches_direct; [done|set_solver].
Qed.

(** C3 (include audit reflexivity): when F includes H directly and F's
    references map has an entry for H, the auditor returns and does not write
    "F includes H for no reason". *)
Theorem audit_reflexivity (path : N → string) (isSystem : string → bool)
    (g : Deps) (fuel : nat) (F H : N) (d : Dep) :
  wf g → size g < fuel →
  g !! F = Some d → H ∈ includes d → H ∈ dom (references d) →
  ∃ msgs, checkIncludes path isSystem fuel g = Some msgs
          ∧ IncludesForNoReason F H ∉ msgs.
Proof.
  intros Hwf Hfuel HFd Hinc Href.
  destruct (checkIncludes_total path isSystem g fuel Hwf Hfuel) as [msgs Hrun].
  exists msgs. split; [done|]. intros Hin.
  destruct (checkIncludes_no_reason path isSystem g fuel msgs F H Hrun Hin)
    as (d' & A & h & seen & HFd' & HA & Hh & Hid & Hv).
  simplify_eq.
  destruct fuel as [|fuel]; [lia|].
  rewrite validateNeedsInclude_referenced in Hv; done.
Qed.

Lemma audit_reflexivity_witness :
  ∃ msgs, checkIncludes srcPath underUsr 3 cyclic = Some msgs
          ∧ IncludesForNoReason 1 2 ∉ msgs.
Proof.
  apply (audit_reflexivity srcPath underUsr cyclic 3 1 2
           (mkDep 1 {[1%N; 2%N]} {[ 2%N := {[ (1, 7, 3)%N := (2, 1, 1)%N ]} ]})).
  - by apply (bool_decide_unpack _).
  - by apply (bool_decide_unpack _).
  - done.
  - set_solver.
  - set_solver.
Defined.

(** C4 (cycle safety): on every table, self-including and mutually including
    files among them, both searches return for every pair the auditor asks
    about, and the auditor returns, within one unit of budget per file and
    one more. *)
Theorem cycle_safety (path : N → string) (isSystem : string → bool)
    (g : Deps) (fuel : nat) :
  wf g → size g < fuel →
  (∀ F d A h, g !! F = Some d → A ∈ includes d → g !! A = Some h →
     is_Some (validateNeedsInclude fuel g d h ∅))
  ∧ (∀ F d R, g !! F = Some d → R ∈ dom (references d) →
     is_Some (validateHasInclude fuel g R d ∅))
  ∧ is_Some (checkIncludes path isSystem fuel g).
Proof.
  intros Hwf Hfuel. split_and!.
  - intros F d A h HFd HA Hh.
    destruct (wf_lookup g A h Hwf Hh) as (Hid & _ & _).
    destruct (validateNeedsInclude_total g fuel d h ∅ Hwf) as (b & s & -> & _);
      [by rewrite Hid| |done].
    rewrite difference_empty_L, size_dom. lia.
  - intros F d R HFd HR.
    destruct (wf_lookup g F d Hwf HFd) as (_ & Hcl & Hnz).
    destruct fuel as [|[|fuel]].
    { lia. }
    { assert (size g ≠ 0); [|lia].
      intros Hz%map_size_empty_inv. by rewrite Hz in HFd. }
    destruct (validateHasInclude_two g fuel R d) as [s ->]; [|done|done].
    by intros ->.
  - by apply checkIncludes_total.
Qed.

Lemma cycle_safety_witness :
  is_Some (checkIncludes srcPath underUsr 3 cyclic).
Proof.
  apply (cycle_safety srcPath underUsr cyclic 3).
  - by apply (bool_decide_unpack _).
  - by apply (bool_decide_unpack _).
Defined.

End IncludeAuditFacts.

(** ** Part II.  The cursor records *)

Module AstDumpFacts.
Import IncludeAudit AstDump AstWalk.

Lemma bind_Some {A B} (m : M A) (k : A → M B) st b st' :
  (m ≫= k) st = Some (b, st') ↔
  ∃ a st1, m st = Some (a, st1) ∧ k a st1 = Some (b, st').
Proof.
  unfold mbind, M_bind, bind. split.
  - destruct (m st) as [[a st1]|]; [eauto|done].
  - by intros (a & st1 & -> & ?).
Qed.

Lemma bind_None_l {A B} (m : M A) (k : A → M B) st :
  m st = None → (m ≫= k) st = None.
Proof. intros Hm. unfold mbind, M_bind, bind. by rewrite Hm. Qed.

Lemma bind_Some_l {A B} (m : M A) (k : A → M B) st a st1 :
  m st = Some (a, st1) → (m ≫= k) st = k a st1.
Proof. intros Hm. unfold mbind, M_bind, bind. by rewrite Hm. Qed.

Lemma elem_of_edges e c :
  e ∈ edges c ↔
  referenced c = Some e ∨ lexicalParent c = Some e ∨ semanticParent c = Some e
  ∨ canonical c = Some e ∨ definition c = Some e
  ∨ specializedCursorTemplate c = Some e ∨ e ∈ overridden c.
Proof.
  unfold edges. rewrite elem_of_app, list_elem_of_omap. split.
  - intros [(p & Hp & Hid)|Ho]; [|tauto]. simpl in Hid. subst p.
    repeat (apply elem_of_cons in Hp as [Hp|Hp]; [symmetry in Hp; tauto|]).
    by apply elem_of_nil in Hp.
  - intros H. destruct H as [H|[H|[H|[H|[H|[H|H]]]]]]; [..|by right];
      left; exists (Some e); (split; [|done]); rewrite <- H;
      repeat first [by left | right].
Qed.

Ltac setter_tac :=
  intros p rec; split; [done|]; intros e; rewrite !elem_of_edges; simpl;
  try destruct p; rewrite ?elem_of_app, ?list_elem_of_singleton;
  naive_solver.

Lemma edge_setter_referenced : edge_setter set_referenced.
Proof. setter_tac. Qed.
Lemma edge_setter_lexicalParent : edge_setter set_lexicalParent.
Proof. setter_tac. Qed.
Lemma edge_setter_semanticParent : edge_setter set_semanticParent.
Proof. setter_tac. Qed.
Lemma edge_setter_canonical : edge_setter set_canonical.
Proof. setter_tac. Qed.
Lemma edge_setter_definition : edge_setter set_definition.
Proof. setter_tac. Qed.
Lemma edge_setter_specialized : edge_setter set_specializedCursorTemplate.
Proof. setter_tac. Qed.
Lemma edge_setter_overridden : edge_setter append_overridden.
Proof. setter_tac. Qed.

Ltac plain_tac :=
  intros rec; split; [done|]; intros e; rewrite !elem_of_edges; simpl;
  naive_solver.

Lemma plain_update_range r : plain_update (set_range r).
Proof. plain_tac. Qed.
Lemma plain_update_names k l s d m : plain_update (set_names k l s d m).
Proof. plain_tac. Qed.
Lemma plain_update_templateKind k : plain_update (set_templateKind k).
Proof. plain_tac. Qed.
Lemma plain_update_flags f : plain_update (or_flags f).
Proof. plain_tac. Qed.
Lemma plain_update_type p : plain_update (set_type p).
Proof. plain_tac. Qed.

(** *** What the statements of the body keep *)

Section Stable.
Context (P : State → Prop).

Lemma stable_ret {A} (a : A) : stable P (ret a).
Proof. intros st a' st' Hrun. unfold ret in Hrun. by simplify_eq. Qed.

Lemma stable_bind {A B} (m : M A) (k : A → M B) :
  stable P m → (∀ a, stable P (k a)) → stable P (m ≫= k).
Proof.
  intros Hm Hk st b st' Hrun HP.
  apply bind_Some in Hrun as (a & s1 & Hrun1 & Hrun2).
  eapply Hk; [done|]. by eapply Hm.
Qed.

Lemma stable_when (b : bool) m : stable P m → stable P (when b m).
Proof. intros Hm. destruct b; [done|apply stable_ret]. Qed.

Lemma stable_forEach {A} (f : A → M unit) l :
  (∀ x, stable P (f x)) → stable P (forEach f l).
Proof.
  intros Hf. induction l as [|x l IH]; simpl; [apply stable_ret|].
  by apply stable_bind.
Qed.

Lemma stable_link {CXCursor} (add : CXCursor → M ptr) c set target :
  stable P (add target) → (∀ p, stable P (update c (set p))) →
  stable P (link add c set target).
Proof. intros Hadd Hupd. unfold link. by apply stable_bind. Qed.
End Stable.

Section Phases.
Context {CXCursor : Type} (clang : Clang CXCursor).
Context (P : State → Prop) (add : CXCursor → M ptr).
Context (cursor : CXCursor) (c : addr).
Hypothesis Hupd : ∀ f, plain_update f → stable P (update c f).
Hypothesis Hlink :
  ∀ set target, edge_setter set → stable P (link add c set target).

Lemma stable_describe : stable P (describe clang cursor c).
Proof.
  unfold describe. apply stable_bind; [|intros []].
  - apply Hupd, plain_update_names.
  - apply stable_when, Hupd, plain_update_templateKind.
Qed.

Lemma stable_linkParents : stable P (linkParents clang add cursor c).
Proof.
  unfold linkParents.
  apply stable_bind; [apply Hlink, edge_setter_lexicalParent|intros []].
  apply stable_bind; [apply Hlink, edge_setter_semanticParent|intros []].
  apply Hlink, edge_setter_lexicalParent.
Qed.

Lemma stable_linkOthers : stable P (linkOthers clang add cursor c).
Proof.
  unfold linkOthers.
  apply stable_bind; [apply Hlink, edge_setter_canonical|intros []].
  apply stable_bind; [|intros []].
  { destruct (isCursorDefinition clang cursor);
      [apply Hupd, plain_update_flags|apply Hlink, edge_setter_definition]. }
  apply stable_bind; [apply Hlink, edge_setter_specialized|intros []].
  apply stable_bind; [|intros []; apply Hupd, plain_update_type].
  apply stable_forEach. intros t. apply Hlink, edge_setter_overridden.
Qed.

(** Lines 333-372, which come after the registration. *)
Lemma stable_rest :
  stable P (describe clang cursor c;;
            linkParents clang add cursor c;;
            linkOthers clang add cursor c).
Proof.
  apply stable_bind; [apply stable_describe|intros []].
  apply stable_bind; [apply stable_linkParents|intros []].
  apply stable_linkOthers.
Qed.

Lemma stable_construct :
  (getCursorUSR clang cursor ≠ "" →
   stable P (register (getCursorUSR clang cursor) c)) →
  stable P (construct clang add cursor c).
Proof.
  intros Hreg. unfold construct.
  apply stable_bind; [apply stable_when, Hupd, plain_update_range|intros []].
  apply stable_bind;
    [apply stable_when, Hlink, edge_setter_referenced|intros []].
  case_bool_decide as Husr; simpl; [by apply Hreg|apply stable_ret].
Qed.

Lemma stable_fill :
  (getCursorUSR clang cursor ≠ "" →
   stable P (register (getCursorUSR clang cursor) c)) →
  stable P (fill clang add cursor c).
Proof.
  intros Hreg. unfold fill.
  apply stable_bind; [by apply stable_construct|intros []].
  apply stable_rest.
Qed.
End Phases.

Section Spec.
Context {CXCursor : Type} (clang : Clang CXCursor).

Lemma addCursor_S fuel cursor location :
  addCursor clang (S fuel) cursor location =
  match resolveLocation clang cursor location with
  | None => ret None
  | Some l =>
      found ← (if decide (getCursorUSR clang cursor = "") then ret None
               else lookupUsr (getCursorUSR clang cursor));
      match found with
      | Some existing => ret (Some existing)
      | None =>
          c ← alloc (newCursor (getCursorUSR clang cursor) l);
          fill clang (λ t, addCursor clang fuel t None) cursor c;;
          free c;;
          ret None
      end
  end.
Proof. reflexivity. Qed.

(** The start of a call that has a location: what [mCursorsByUsr.value]
    finds. *)
Lemma found_run cursor st found s :
  (if decide (getCursorUSR clang cursor = "") then ret None
   else lookupUsr (getCursorUSR clang cursor)) st = Some (found, s) →
  s = st
  ∧ (∀ p, found = Some p →
       getCursorUSR clang cursor ≠ ""
       ∧ mCursorsByUsr st !! getCursorUSR clang cursor = Some p)
  ∧ (found = None →
       getCursorUSR clang cursor = ""
       ∨ mCursorsByUsr st !! getCursorUSR clang cursor = None).
Proof.
  destruct (decide (getCursorUSR clang cursor = "")) as [Hempty|Hne].
  - unfold ret. intros ?; simplify_eq. split_and!; [done|done|by left].
  - unfold lookupUsr. intros ?; simplify_eq.
    split_and!; [done|by eauto|by right].
Qed.

(** What a call returns, and that it has changed nothing when it returns a
    pointer that is not null. *)
Lemma addCursor_result fuel cursor loc st r st' :
  addCursor clang fuel cursor loc st = Some (r, st') →
  (∀ p, r = Some p →
     is_Some (resolveLocation clang cursor loc)
     ∧ getCursorUSR clang cursor ≠ ""
     ∧ mCursorsByUsr st !! getCursorUSR clang cursor = Some p ∧ st' = st)
  ∧ (resolveLocation clang cursor loc = None → r = None ∧ st' = st).
Proof.
  intros Hrun. destruct fuel as [|fuel]; [done|].
  rewrite addCursor_S in Hrun.
  destruct (resolveLocation clang cursor loc) as [l|].
  2:{ unfold ret in Hrun. by simplify_eq. }
  split; [|done].
  apply bind_Some in Hrun as (found & s & Hfound & Hrun).
  destruct (found_run cursor st found s Hfound) as (-> & Hwhy & _).
  destruct found as [existing|].
  - unfold ret in Hrun. simplify_eq. intros p ?; simplify_eq.
    destruct (Hwhy p eq_refl). by eauto.
  - apply bind_Some in Hrun as (c & s0 & _ & Hrun).
    apply bind_Some in Hrun as ([] & s1 & _ & Hrun).
    apply bind_Some in Hrun as ([] & s2 & _ & Hrun).
    unfold ret in Hrun. by simplify_eq.
Qed.

Lemma addCursor_no_location fuel cursor st r st' :
  createLocation clang cursor = None →
  addCursor clang fuel cursor None st = Some (r, st') → r = None ∧ st' = st.
Proof.
  intros Hloc Hrun.
  by apply (addCursor_result fuel cursor None st r st' Hrun).
Qed.

Lemma addCursor_registered fuel cursor loc st a :
  is_Some (resolveLocation clang cursor loc) →
  getCursorUSR clang cursor ≠ "" →
  mCursorsByUsr st !! getCursorUSR clang cursor = Some a →
  addCursor clang (S fuel) cursor loc st = Some (Some a, st).
Proof.
  intros [l Hloc] Hne Hreg. rewrite addCursor_S, Hloc.
  unfold mbind, M_bind, bind. rewrite decide_False by done.
  unfold lookupUsr. by rewrite Hreg.
Qed.

(** A call that returns leaves the records as they were: the one it has
    made is destroyed with the [shared_ptr] that owned it. *)
Lemma addCursor_heap fuel cursor loc st r st' :
  addCursor clang fuel cursor loc st = Some (r, st') →
  records st' = records st.
Proof.
  revert cursor loc st r st'.
  induction fuel as [|fuel IH]; intros cursor loc st r st' Hrun; [done|].
  rewrite addCursor_S in Hrun.
  destruct (resolveLocation clang cursor loc) as [l|];
    [|by unfold ret in Hrun; simplify_eq].
  apply bind_Some in Hrun as (found & s & Hfound & Hrun).
  destruct (found_run cursor st found s Hfound) as (-> & _ & _).
  destruct found as [existing|]; [by unfold ret in Hrun; simplify_eq|].
  apply bind_Some in Hrun as (c & s0 & Halloc & Hrun).
  apply bind_Some in Hrun as ([] & s1 & Hfill & Hrun).
  apply bind_Some in Hrun as ([] & s2 & Hfree & Hrun).
  unfold ret in Hrun. unfold free in Hfree. unfold alloc in Halloc.
  simplify_eq. simpl.
  set (c := fresh (dom (records st))) in *.
  assert (stable (λ s, delete c (records s) = records st)
            (fill clang (λ t, addCursor clang fuel t None) cursor c)) as Hkeep.
  { apply stable_fill.
    - intros f _ s [] s' Hrun Hs. unfold update in Hrun. simplify_eq.
      simpl. by rewrite delete_alter_eq.
    - intros set target _. apply stable_link.
      + intros s p s' Hrun Hs. by rewrite (IH _ _ _ _ _ Hrun).
      + intros p s [] s' Hrun Hs. unfold update in Hrun. simplify_eq.
        simpl. by rewrite delete_alter_eq.
    - intros _ s [] s' Hrun Hs. unfold register in Hrun. by simplify_eq. }
  apply (Hkeep _ _ _ Hfill). simpl.
  apply delete_insert_id, not_elem_of_dom, is_fresh.
Qed.

(** A call never takes an entry out of [mCursorsByUsr] and never gives an
    entry another address. *)
Lemma addCursor_entries fuel m0 cursor loc :
  stable (λ s, m0 ⊆ mCursorsByUsr s) (addCursor clang fuel cursor loc).
Proof.
  revert m0 cursor loc.
  induction fuel as [|fuel IH]; intros m0 cursor loc st r st' Hrun Hsub;
    [done|].
  rewrite addCursor_S in Hrun.
  destruct (resolveLocation clang cursor loc) as [l|];
    [|by unfold ret in Hrun; simplify_eq].
  apply bind_Some in Hrun as (found & s & Hfound & Hrun).
  destruct (found_run cursor st found s Hfound) as (-> & _ & Hnone).
  destruct found as [existing|]; [by unfold ret in Hrun; simplify_eq|].
  apply bind_Some in Hrun as (c & s0 & Halloc & Hrun).
  apply bind_Some in Hrun as ([] & s1 & Hfill & Hrun).
  apply bind_Some in Hrun as ([] & s2 & Hfree & Hrun).
  unfold ret in Hrun. unfold free in Hfree. unfold alloc in Halloc.
  simplify_eq. simpl.
  assert (stable (λ s, m0 ⊆ mCursorsByUsr s)
            (fill clang (λ t, addCursor clang fuel t None) cursor
               (fresh (dom (records st))))) as Hkeep.
  { apply stable_fill.
    - intros f _ s [] s' Hrun Hs. unfold update in Hrun. by simplify_eq.
    - intros set target _. apply stable_link; [apply IH|].
      intros p s [] s' Hrun Hs. unfold update in Hrun. by simplify_eq.
    - intros Husr s [] s' Hrun Hs. unfold register in Hrun. simplify_eq.
      simpl. apply insert_subseteq_r; [|done].
      eapply lookup_weaken_None; [|exact Hsub].
      by destruct (Hnone eq_refl). }
  by apply (Hkeep _ _ _ Hfill).
Qed.
End Spec.

(** *** The pointers a record gets *)

Lemma known_mono st st' a :
  mCursorsByUsr st ⊆ mCursorsByUsr st' → known st a → known st' a.
Proof.
  intros Hsub (u & Hne & Hu). exists u. split; [done|].
  by eapply lookup_weaken.
Qed.

Section Edges.
Context {CXCursor : Type} (clang : Clang CXCursor) (fuel : nat).

(** [c->member = addCursor(target)]: the pointer is null for a target seen
    for the first time, and is else the address that [mCursorsByUsr] has for
    the USR of the target, the call having changed nothing. *)
Lemma link_value c set target st st' :
  link (λ t, addCursor clang fuel t None) c set target st = Some (tt, st') →
  ∃ p s1, addCursor clang fuel target None st = Some (p, s1)
    ∧ st' = mkState (alter (set p) c (records s1)) (mCursorsByUsr s1)
    ∧ records s1 = records st
    ∧ mCursorsByUsr st ⊆ mCursorsByUsr s1
    ∧ (firstSeen clang st target → p = None)
    ∧ (¬ firstSeen clang st target →
       p = mCursorsByUsr st !! getCursorUSR clang target ∧ s1 = st)
    ∧ (∀ a, p = Some a → known st a ∧ s1 = st).
Proof.
  unfold link. intros Hrun.
  apply bind_Some in Hrun as (p & s1 & Hcall & Hupd).
  unfold update in Hupd. simplify_eq. exists p, s1.
  destruct (addCursor_result clang fuel target None st p s1 Hcall)
    as [Hsome Hnone].
  split_and!; [done|done|by eapply addCursor_heap| | | |].
  - by apply (addCursor_entries clang fuel _ target None st p s1 Hcall).
  - intros Hfirst. destruct p as [a|]; [exfalso|done].
    destruct (Hsome a eq_refl) as ([l Hl] & Hne & Hreg & _).
    simpl in Hl. destruct Hfirst as [?|[?|?]]; congruence.
  - intros Hseen. destruct fuel as [|fuel']; [done|].
    destruct (createLocation clang target) as [l|] eqn:Hloc;
      [|by destruct Hseen; left].
    destruct (decide (getCursorUSR clang target = "")) as [?|Hne];
      [by destruct Hseen; right; left|].
    destruct (mCursorsByUsr st !! getCursorUSR clang target) as [a|] eqn:Hreg;
      [|by destruct Hseen; right; right].
    rewrite (addCursor_registered clang fuel' target None st a) in Hcall;
      [by simplify_eq|by simpl; rewrite Hloc|done|done].
  - intros a ->. destruct (Hsome a eq_refl) as (_ & Hne & Hreg & ->).
    split; [|done]. by exists (getCursorUSR clang target).
Qed.

Lemma edgesKnown_update c f :
  plain_update f → stable (edgesKnown c) (update c f).
Proof.
  intros Hf s [] s' Hrun (rec & Hc & Hk). unfold update in Hrun.
  simplify_eq. exists (f rec). simpl. rewrite lookup_alter_eq, Hc.
  split; [done|]. intros e He%Hf. exact (Hk e He).
Qed.

Lemma edgesKnown_link c set target :
  edge_setter set →
  stable (edgesKnown c) (link (λ t, addCursor clang fuel t None) c set target).
Proof.
  intros Hset s [] s' Hrun (rec & Hc & Hk).
  destruct (link_value c set target s s' Hrun)
    as (p & s1 & _ & -> & Hheap & Hsub & _ & _ & Hp).
  exists (set p rec). simpl. rewrite lookup_alter_eq, Hheap, Hc.
  split; [done|]. intros e [He| ->]%Hset.
  - apply (known_mono s); [done|]. by apply Hk.
  - destruct (Hp e eq_refl) as [Hknown ->]. exact Hknown.
Qed.

(** Lines 319-331.  The pointer to the referenced cursor is read from
    [mCursorsByUsr] before the call registers its own USR, which was not
    there at the start of the call: the registration leaves it there. *)
Lemma construct_edgesKnown cursor c rec s s' :
  records s !! c = Some rec → (∀ e, e ∉ edges rec) →
  getCursorUSR clang cursor = ""
  ∨ mCursorsByUsr s !! getCursorUSR clang cursor = None →
  construct clang (λ t, addCursor clang fuel t None) cursor c s
  = Some (tt, s') →
  edgesKnown c s'.
Proof.
  intros Hc Hnone Hnew Hrun. unfold construct in Hrun.
  apply bind_Some in Hrun as ([] & sa & Hrange & Hrun).
  apply bind_Some in Hrun as ([] & sb & Href & Hreg).
  assert (∃ reca, records sa !! c = Some reca ∧ (∀ e, e ∉ edges reca)
                  ∧ mCursorsByUsr sa = mCursorsByUsr s)
    as (reca & Hca & Hnonea & Hmapa).
  { destruct (bool_decide _); simpl in Hrange.
    - unfold update in Hrange. simplify_eq. eexists. simpl.
      rewrite lookup_alter_eq, Hc. split_and!; [done| |done].
      intros e He%plain_update_range. by apply (Hnone e).
    - unfold ret in Hrange. simplify_eq. by exists rec. }
  assert (∃ recb, records sb !! c = Some recb
            ∧ ∀ e, e ∈ edges recb →
                ∃ u, u ≠ "" ∧ mCursorsByUsr sb !! u = Some e
                     ∧ mCursorsByUsr s !! u = Some e)
    as (recb & Hcb & Hkb).
  { destruct (negb _); simpl in Href.
    - destruct (link_value c set_referenced _ sa sb Href)
        as (p & s1 & _ & -> & Hheap & Hsub & _ & _ & Hp).
      eexists. simpl. rewrite lookup_alter_eq, Hheap, Hca.
      split; [done|]. intros e [He| ->]%edge_setter_referenced.
      + by destruct (Hnonea e).
      + destruct (Hp e eq_refl) as [(u & Hne & Hu) ->].
        exists u. rewrite <- Hmapa. done.
    - unfold ret in Href. simplify_eq. exists reca. split; [done|].
      intros e He. by destruct (Hnonea e). }
  case_bool_decide as Husr; simpl in Hreg.
  - unfold register in Hreg. simplify_eq. exists recb. split; [done|].
    intros e He. destruct (Hkb e He) as (u & Hne & Hu & Hu0).
    exists u. split; [done|]. simpl. rewrite lookup_insert_ne; [done|].
    intros <-. destruct Hnew; congruence.
  - unfold ret in Hreg. simplify_eq. exists recb. split; [done|].
    intros e He. destruct (Hkb e He) as (u & Hne & Hu & _). by exists u.
Qed.

(** A call that makes a record, at its last statement: the record is at
    the address [alloc] gave, where there was none, the other records are
    as they were, and each pointer member that is not null is an address
    in [mCursorsByUsr]. *)
Lemma filled_spec cursor l st c s :
  getCursorUSR clang cursor = ""
  ∨ mCursorsByUsr st !! getCursorUSR clang cursor = None →
  filled clang (S fuel) cursor l st = Some (c, s) →
  c = fresh (dom (records st)) ∧ records st !! c = None
  ∧ delete c (records s) = records st
  ∧ mCursorsByUsr st ⊆ mCursorsByUsr s
  ∧ (getCursorUSR clang cursor ≠ "" →
     mCursorsByUsr s !! getCursorUSR clang cursor = Some c)
  ∧ edgesKnown c s.
Proof.
  intros Hnew Hrun. cbn [filled] in Hrun.
  apply bind_Some in Hrun as (c' & s0 & Halloc & Hrun).
  apply bind_Some in Hrun as ([] & s1 & Hfill & Hrun).
  unfold ret in Hrun. unfold alloc in Halloc. simplify_eq.
  set (c := fresh (dom (records st))) in *.
  set (s0 := mkState (<[c:=newCursor (getCursorUSR clang cursor) l]>
                        (records st)) (mCursorsByUsr st)) in *.
  assert (records st !! c = None) as Hfresh
    by apply not_elem_of_dom, is_fresh.
  unfold fill in Hfill.
  apply bind_Some in Hfill as ([] & s1 & Hcons & Hrest).
  set (add := λ t, addCursor clang fuel t None) in *.
  assert (∀ P : State → Prop,
            (∀ f, stable P (update c f)) →
            (∀ t, stable P (add t)) →
            stable P (describe clang cursor c;;
                      linkParents clang add cursor c;;
                      linkOthers clang add cursor c)) as Hrest_keeps.
  { intros P Hu Ha. apply stable_rest; [by intros f _|].
    intros set target _. by apply stable_link. }
  split_and!; [done|done| | | |].
  - assert (stable (λ x, delete c (records x) = records st)
              (fill clang add cursor c)) as Hkeep.
    { apply stable_fill.
      - intros f _ x [] x' Hx Hd. unfold update in Hx. simplify_eq.
        simpl. by rewrite delete_alter_eq.
      - intros set target _. apply stable_link.
        + intros x p x' Hx Hd. by rewrite (addCursor_heap _ _ _ _ _ _ _ Hx).
        + intros p x [] x' Hx Hd. unfold update in Hx. simplify_eq.
          simpl. by rewrite delete_alter_eq.
      - intros _ x [] x' Hx Hd. unfold register in Hx. by simplify_eq. }
    apply (Hkeep s0 tt s).
    + unfold fill. apply bind_Some. by exists tt, s1.
    + simpl. by apply delete_insert_id.
  - assert (stable (λ x, mCursorsByUsr st ⊆ mCursorsByUsr x)
              (fill clang add cursor c)) as Hkeep.
    { apply stable_fill.
      - intros f _ x [] x' Hx Hd. unfold update in Hx. by simplify_eq.
      - intros set target _. apply stable_link;
          [apply addCursor_entries|].
        intros p x [] x' Hx Hd. unfold update in Hx. by simplify_eq.
      - intros Husr x [] x' Hx Hd. unfold register in Hx. simplify_eq.
        simpl. apply insert_subseteq_r; [|done]. by destruct Hnew. }
    apply (Hkeep s0 tt s); [|done].
    unfold fill. apply bind_Some. by exists tt, s1.
  - intros Husr.
    assert (mCursorsByUsr s1 !! getCursorUSR clang cursor = Some c) as Hreg.
    { unfold construct in Hcons.
      apply bind_Some in Hcons as ([] & sa & _ & Hcons).
      apply bind_Some in Hcons as ([] & sb & _ & Hcons).
      rewrite bool_decide_eq_true_2 in Hcons by done. simpl in Hcons.
      unfold register in Hcons. simplify_eq. simpl.
      by rewrite lookup_insert_eq. }
    apply map_singleton_subseteq_l.
    apply (Hrest_keeps (λ x, {[getCursorUSR clang cursor := c]}
                             ⊆ mCursorsByUsr x)) with s1 tt; [| |done|].
    + intros f x [] x' Hx Hd. unfold update in Hx. by simplify_eq.
    + intros t. apply addCursor_entries.
    + by apply map_singleton_subseteq_l.
  - assert (edgesKnown c s1) as Hk1.
    { eapply (construct_edgesKnown cursor c _ s0 s1); [| |done|done].
      - apply lookup_insert_eq.
      - intros e He. simpl in He. by apply elem_of_nil in He. }
    revert Hk1. apply (stable_rest clang (edgesKnown c) add cursor c) with tt;
      [|intros set target; apply edgesKnown_link|done].
    intros f. apply edgesKnown_update.
Qed.

(** A call that makes a record is [filled], the destruction of the record
    and [return 0]. *)
Lemma addCursor_filled cursor loc l st r st' :
  resolveLocation clang cursor loc = Some l →
  getCursorUSR clang cursor = ""
  ∨ mCursorsByUsr st !! getCursorUSR clang cursor = None →
  addCursor clang (S fuel) cursor loc st = Some (r, st') →
  r = None
  ∧ ∃ c s, filled clang (S fuel) cursor l st = Some (c, s)
      ∧ st' = mkState (delete c (records s)) (mCursorsByUsr s).
Proof.
  intros Hloc Hnew Hrun. rewrite addCursor_S, Hloc in Hrun.
  apply bind_Some in Hrun as (found & s & Hfound & Hrun).
  destruct (found_run clang cursor st found s Hfound) as (-> & Hwhy & _).
  destruct found as [existing|].
  { destruct (Hwhy existing eq_refl). destruct Hnew; congruence. }
  apply bind_Some in Hrun as (c & s0 & Halloc & Hrun).
  apply bind_Some in Hrun as ([] & s1 & Hfill & Hrun).
  apply bind_Some in Hrun as ([] & s2 & Hfree & Hrun).
  unfold ret in Hrun. unfold free in Hfree. simplify_eq.
  split; [done|]. exists c, s1. split; [|done].
  cbn [filled]. unfold mbind, M_bind, bind. rewrite Halloc.
  fold (@bind State). unfold mbind, M_bind, bind in Hfill |- *.
  by rewrite Hfill.
Qed.
End Edges.

Section Calls.
Context {CXCursor : Type} (clang : Clang CXCursor).

(** A call on a cursor with a location and a USR, when it returns, leaves
    the USR in [mCursorsByUsr]. *)
Lemma addCursor_registers fuel cursor loc st r st' :
  addCursor clang fuel cursor loc st = Some (r, st') →
  is_Some (resolveLocation clang cursor loc) →
  getCursorUSR clang cursor ≠ "" →
  is_Some (mCursorsByUsr st' !! getCursorUSR clang cursor).
Proof.
  intros Hrun [l Hloc] Husr.
  destruct (mCursorsByUsr st !! getCursorUSR clang cursor) as [a|] eqn:Hreg.
  - exists a. apply map_singleton_subseteq_l.
    apply (addCursor_entries clang fuel _ cursor loc st r st' Hrun).
    by apply map_singleton_subseteq_l.
  - destruct fuel as [|fuel]; [done|].
    destruct (addCursor_filled clang fuel cursor loc l st r st' Hloc
                (or_intror Hreg) Hrun) as (_ & c & s & Hfilled & ->).
    destruct (filled_spec clang fuel cursor l st c s (or_intror Hreg) Hfilled)
      as (_ & _ & _ & _ & Hc & _).
    exists c. simpl. by apply Hc.
Qed.

(** A cursor that has a location, is not registered and is its own
    referenced cursor: the call on the referenced cursor (line 326) comes
    before the registration (line 330) and meets the same cursor, not
    registered, again. *)
Lemma addCursor_own_reference cursor fuel loc st :
  is_Some (createLocation clang cursor) →
  getCursorReferenced clang cursor = cursor →
  equalCursors clang cursor (nullCursor clang) = false →
  getCursorUSR clang cursor = ""
  ∨ mCursorsByUsr st !! getCursorUSR clang cursor = None →
  addCursor clang fuel cursor loc st = None.
Proof.
  intros [l Hloc] Hself Hnull. revert loc st.
  induction fuel as [|fuel IH]; intros loc st Hnew; [done|].
  rewrite addCursor_S.
  assert (is_Some (resolveLocation clang cursor loc)) as [l' ->].
  { unfold resolveLocation. destruct loc; [by eexists|by rewrite Hloc]. }
  assert ((if decide (getCursorUSR clang cursor = "") then ret None
           else lookupUsr (getCursorUSR clang cursor)) st = Some (None, st))
    as Hfound.
  { destruct (decide (getCursorUSR clang cursor = "")); [done|].
    unfold lookupUsr. by destruct Hnew as [?| ->]. }
  rewrite (bind_Some_l _ _ _ _ _ Hfound).
  erewrite bind_Some_l; [|done].
  apply bind_None_l. unfold fill. apply bind_None_l. unfold construct.
  rewrite Hself, Hnull. simpl.
  assert (∀ s0 : State, mCursorsByUsr s0 = mCursorsByUsr st →
            (link (λ t, addCursor clang fuel t None)
               (fresh (dom (records st))) set_referenced cursor
             ≫= λ _ : (),
                  when (bool_decide (getCursorUSR clang cursor ≠ ""))
                    (register (getCursorUSR clang cursor)
                       (fresh (dom (records st))))) s0 = None) as Hlink.
  { intros s0 Hmap. apply bind_None_l. unfold link. apply bind_None_l.
    apply IH. by rewrite Hmap. }
  destruct (bool_decide (is_Some (getCursorExtent clang cursor))); simpl.
  - erewrite bind_Some_l; [|by unfold update]. by apply Hlink.
  - erewrite bind_Some_l; [|by unfold ret]. by apply Hlink.
Qed.

(** Lines 342-344 leave in [lexicalParent] the pointer of the last of the
    three calls, which is made on the semantic parent. *)
Lemma linkParents_lexical fuel cursor c rec s s' :
  records s !! c = Some rec →
  linkParents clang (λ t, addCursor clang fuel t None) cursor c s
  = Some (tt, s') →
  ∃ sb p sb' rec',
    addCursor clang fuel (getCursorSemanticParent clang cursor) None sb
    = Some (p, sb')
    ∧ mCursorsByUsr s' = mCursorsByUsr sb'
    ∧ records s' !! c = Some rec' ∧ lexicalParent rec' = p.
Proof.
  intros Hc Hrun. unfold linkParents in Hrun.
  apply bind_Some in Hrun as ([] & sa & Hl1 & Hrun).
  apply bind_Some in Hrun as ([] & sb & Hl2 & Hl3).
  destruct (link_value clang fuel c _ _ s sa Hl1)
    as (p1 & s1 & _ & -> & Hheap1 & _).
  destruct (link_value clang fuel c _ _ _ sb Hl2)
    as (p2 & s2 & _ & -> & Hheap2 & _).
  destruct (link_value clang fuel c _ _ _ s' Hl3)
    as (p3 & s3 & Hcall3 & -> & Hheap3 & _).
  eexists _, p3, s3, _. split; [exact Hcall3|]. split; [done|].
  simpl. rewrite lookup_alter_eq, Hheap3. simpl.
  rewrite lookup_alter_eq, Hheap2. simpl.
  rewrite lookup_alter_eq, Hheap1, Hc. done.
Qed.
End Calls.



(** C6 (the parents), where the claim fails.  The call on the definition
    of [f], from empty tables, returns: no record is left, and
    [mCursorsByUsr] has for the USR of [f] an address at which there is no
    record.  As the call reached its last statement the record was there,
    with [lexicalParent] the address registered for the struct, the
    semantic parent, and [semanticParent] null.  And where the definition
    is its own referenced cursor, which is what libclang answers for a
    declaration, the call does not return. *)
Theorem lexicalParent_record_destroyed_at_return :
  addCursor exampleClang 4 4 None initial = Some (None, dumped)
  ∧ records dumped = ∅
  ∧ (∃ a, mCursorsByUsr dumped !! getCursorUSR exampleClang 4 = Some a
          ∧ records dumped !! a = None)
  ∧ (∃ c rec a,
       filled exampleClang 4 4 (1, 2, 25)%N initial = Some (c, dumping)
       ∧ records dumping !! c = Some rec
       ∧ getCursorSemanticParent exampleClang 4 = 3
       ∧ mCursorsByUsr dumping !! getCursorUSR exampleClang 3 = Some a
       ∧ lexicalParent rec = Some a ∧ semanticParent rec = None
       ∧ dumped = mkState (delete c (records dumping)) (mCursorsByUsr dumping))
  ∧ (∀ fuel, addCursor declarationClang fuel 4 None initial = None).
Proof.
  split_and!.
  - vm_compute. reflexivity.
  - vm_compute. reflexivity.
  - exists 1%positive. split; vm_compute; reflexivity.
  - eexists 1%positive, _, 2%positive.
    split_and!; try (vm_compute; reflexivity).
  - intros fuel. apply addCursor_own_reference; [by eexists|done|done|].
    right. done.
Qed.

End AstDumpFacts.

(** ** Part III.  The command handlers *)

Module DaemonFacts.
Import Daemon DaemonCommands.

Lemma length_append (a b : string) :
  String.length (a +:+ b) = String.length a + String.length b.
Proof. induction a as [|c a IH]; simpl; [done|by rewrite IH]. Qed.

Lemma substring_whole (n : nat) (text : string) :
  String.length text ≤ n → String.substring 0 n text = text.
Proof.
  revert n. induction text as [|c text IH]; intros [|n] Hlen; simpl in *;
    try done; try lia.
  rewrite IH; [done|lia].
Qed.

(** A text that fits the buffer is kept whole. *)
Lemma snprintf_fits (size : nat) (text : string) :
  String.length text < size → snprintf size text = text.
Proof. intros Hlen. apply substring_whole. lia. Qed.

Lemma createResultMap_inj a b : createResultMap a = createResultMap b → a = b.
Proof.
  unfold createResultMap. intros Heq.
  assert (<["result":=QBytes a]> (∅ : Args) !! "result" = Some (QBytes b)) as H.
  { rewrite Heq. apply lookup_insert_eq. }
  rewrite lookup_insert_eq in H. congruence.
Qed.

Section Handlers.
Context {CXCursor : Type} (env : Env CXCursor).

(** When the loop of [removeSourceFile] returns, it has released and erased
    the entries whose key matches, and no other. *)
Lemma removeLoop_erases regexp pattern keys units released removed
    units' released' removed' :
  NoDup keys →
  removeLoop env regexp pattern keys units released removed
  = Some (units', released', removed') →
  (∀ key, units' !! key =
     if bool_decide (key ∈ keys) && matchesKey env regexp pattern key
     then None else units !! key)
  ∧ released' = released
      ++ omap (λ key, units !! key)
           (filter (λ key, matchesKey env regexp pattern key = true) keys).
Proof.
  revert units released removed.
  induction keys as [|key rest IH]; intros units released removed Hnd Hrun.
  { simpl in Hrun. simplify_eq. split; [done|]. by rewrite app_nil_r. }
  apply NoDup_cons in Hnd as [Hnotin Hnd]. simpl in Hrun.
  destruct (units !! key) as [unit|] eqn:Hunit; [|done].
  rewrite filter_cons.
  destruct (matchesKey env regexp pattern key) eqn:Hm.
  - destruct rest as [|next rest']; [done|].
    destruct (IH _ _ _ Hnd Hrun) as [Hunits ->]. split.
    + intros k. rewrite Hunits.
      destruct (decide (k = key)) as [->|Hne].
      * rewrite (bool_decide_eq_false_2 (key ∈ next :: rest')) by done.
        rewrite (bool_decide_eq_true_2 (key ∈ key :: next :: rest')) by left.
        rewrite Hm. simpl. apply lookup_delete_eq.
      * rewrite lookup_delete_ne by done.
        assert (bool_decide (k ∈ key :: next :: rest')
                = bool_decide (k ∈ next :: rest')) as ->; [|done].
        apply bool_decide_ext. rewrite (elem_of_cons _ k key). naive_solver.
    + rewrite decide_True by done. simpl. rewrite Hunit. simpl.
      rewrite <- app_assoc. simpl. do 2 f_equal.
      apply list_omap_ext, Forall_Forall2_diag, Forall_forall.
      intros k [_ Hk]%list_elem_of_filter.
      rewrite lookup_delete_ne; [done|]. intros ->. done.
  - destruct (IH _ _ _ Hnd Hrun) as [Hunits ->]. split.
    + intros k. rewrite Hunits.
      destruct (decide (k = key)) as [->|Hne].
      * rewrite (bool_decide_eq_false_2 (key ∈ rest)) by done.
        rewrite Hm. by rewrite !andb_false_r.
      * assert (bool_decide (k ∈ key :: rest) = bool_decide (k ∈ rest))
          as ->; [|done].
        apply bool_decide_ext. rewrite (elem_of_cons _ k key). naive_solver.
    + by rewrite decide_False by done.
Qed.
End Handlers.

(** C2 (claim: the result of [remove] lists exactly the paths removed).  The
    key is read from the iterator after [erase] has moved it on, so the
    result names the entry that follows each removed one.  With the cache
    holding [/src/a.cpp] and [/src/b.h], [remove a.cpp] releases and erases
    [/src/a.cpp] and answers "Removed /src/b.h" when the hash iterates in
    this order; in the other order the key is read at [end()]. *)
Theorem removeSourceFile_names_next_entry :
  removeSourceFile exampleEnv ["/src/a.cpp"; "/src/b.h"] ∅ ["a.cpp"] twoUnits
  = Some (createResultMap "Removed /src/b.h",
          mkState {[ "/src/b.h" := 2%N ]} [1%N] [] [] [])
  ∧ removeSourceFile exampleEnv ["/src/b.h"; "/src/a.cpp"] ∅ ["a.cpp"] twoUnits
    = None.
Proof. split; vm_compute; reflexivity. Qed.

(** C7 (the [add] command): an empty path and a path that does not resolve
    give an error message, other than the message of success, and leave the
    daemon as it is, the calls of [addFile] included; a path that resolves
    adds one call of [addFile], with the resolved path and no arguments. *)
Theorem addSourceFile_rejects_or_enqueues {CXCursor} (env : Env CXCursor)
    (args : Args) (st : State) :
  let file := toByteArray (value args "file") in
  let result := (addSourceFile env args st).1 in
  let st' := (addSourceFile env args st).2 in
  (file = "" →
     result = createResultMap "No file to add (use --file=<file>)"
     ∧ result ≠ createResultMap "File added" ∧ st' = st)
  ∧ (file ≠ "" → (resolve env file).1 = false →
     result = createResultMap ((resolve env file).2 +:+ " Doesn't exist")
     ∧ result ≠ createResultMap "File added" ∧ st' = st)
  ∧ (file ≠ "" → (resolve env file).1 = true →
     result = createResultMap "File added"
     ∧ addedFiles st' = addedFiles st ++ [((resolve env file).2, [])]
     ∧ mTranslationUnits st' = mTranslationUnits st
     ∧ disposed st' = disposed st ∧ loads st' = loads st
     ∧ lookups st' = lookups st).
Proof.
  intros file result st'. subst result st'. unfold addSourceFile. fold file.
  split_and!.
  - intros ->. simpl. split_and!; [done| |done].
    by intros ?%createResultMap_inj.
  - intros Hne Hres. rewrite decide_False by done.
    destruct (resolve env file) as [ok resolved]. simpl in *. subst ok. simpl.
    split_and!; [done| |done]. intros Heq%createResultMap_inj.
    apply (f_equal String.length) in Heq. rewrite length_append in Heq.
    simpl in Heq. lia.
  - intros Hne Hres. rewrite decide_False by done.
    destruct (resolve env file) as [ok resolved]. simpl in *. subst ok. done.
Qed.

Lemma addSourceFile_rejects_or_enqueues_witness :
  (addSourceFile exampleEnv {[ "file" := QBytes "a.cpp" ]} emptyState).1
  = createResultMap "File added"
  ∧ addedFiles (addSourceFile exampleEnv {[ "file" := QBytes "a.cpp" ]}
                  emptyState).2
    = [("/src/a.cpp", [])].
Proof.
  destruct (addSourceFile_rejects_or_enqueues exampleEnv
              {[ "file" := QBytes "a.cpp" ]} emptyState) as (_ & _ & Hok).
  destruct Hok as (Hres & Hfiles & _); [done|done|]. by split.
Defined.

(** What [lookupLine] answers when it gets as far as the cursor: with the
    three arguments given, the path it works with a file, a line and a
    column other than 0, a unit cached under that path and a valid cursor at
    the position, the cursor is resolved to its canonical cursor when it is
    a C++ method and to its referenced cursor otherwise; the answer is
    "No referenced cursor" when the resolved cursor is not valid, and else
    the first 62 characters of "Symbol (decl) at <path>, line L column C"
    for the resolved cursor's location: all of it when it is that short. *)
Lemma lookupLine_result {CXCursor} (env : Env CXCursor) (args : Args)
    (st : State) :
  let file := toByteArray (value args "file") in
  let file := if isResolved env file then (resolve env file).2 else file in
  let line := toInt env (value args "line") in
  let column := toInt env (value args "column") in
  let unit := default 0%N (mTranslationUnits st !! file) in
  let cursor := cursorAt env unit file line column in
  let resolved := resolveCursor env cursor in
  let text := symbolAt (instantiationLocation env resolved) in
  hasArg args "file" = true → hasArg args "line" = true →
  hasArg args "column" = true →
  isFile env file = true → line ≠ 0%Z → column ≠ 0%Z →
  unit ≠ 0%N → isValidCursor env cursor = true →
  resolved = (if isCXXMethod env cursor then getCanonicalCursor env cursor
              else getCursorReferenced env cursor)
  ∧ lookupLine env args st
    = createResultMap (if isValidCursor env resolved
                       then String.substring 0 62 text
                       else "No referenced cursor")
  ∧ (isValidCursor env resolved = true → String.length text ≤ 62 →
     lookupLine env args st = createResultMap text).
Proof.
  intros file0 file line column unit cursor resolved text
    Hfile Hline Hcolumn Hisfile Hl Hc Hunit Hvalid.
  assert (lookupLine env args st
          = createResultMap (if isValidCursor env resolved
                             then String.substring 0 62 text
                             else "No referenced cursor")) as Hrun.
  { unfold lookupLine. rewrite Hfile, Hline, Hcolumn. simpl.
    fold file0. fold file. fold line. fold column. rewrite Hisfile. simpl.
    rewrite !bool_decide_eq_false_2 by done. simpl.
    fold unit. rewrite decide_False by done.
    fold cursor. rewrite Hvalid. simpl. fold resolved.
    by destruct (isValidCursor env resolved). }
  split_and!; [done|done|].
  intros Hres Hlen. rewrite Hrun, Hres. by rewrite substring_whole.
Qed.

(** C5 (the answer of [lookupline]), where the claim fails.  The daemon
    runs in [/src]; [load a.cpp] has been given and the unit has arrived,
    so that the cache holds it under [/src/a.cpp].  Asked with that path,
    [lookupline] answers "Symbol (decl) at /src/b.h, line 3 column 1"; asked
    with [a.cpp], the same file, it answers "Translation unit not found":
    line 311 resolves the path only when [isResolved()] already holds.  And
    for the call at line 12, which refers to a declaration in a file with a
    long path, the text "Symbol (decl) at ..., line 120 column 17" has 79
    characters and the answer is its first 62: the buffer has 64 and
    [snprintf] is given 63. *)
Theorem lookupLine_misses_unit_and_cuts_text :
  let st := onFileParsed "/src/a.cpp" 1%N
              (load workingDirEnv ["a.cpp"] emptyState).2 in
  mTranslationUnits st = {[ "/src/a.cpp" := 1%N ]}
  ∧ (resolve workingDirEnv "a.cpp").2 = "/src/a.cpp"
  ∧ lookupLine workingDirEnv (lineArgs 1) st
    = createResultMap "Symbol (decl) at /src/b.h, line 3 column 1"
  ∧ lookupLine workingDirEnv relativeArgs st
    = createResultMap "Translation unit not found"
  ∧ symbolAt (instantiationLocation exampleEnv (resolveCursor exampleEnv 6))
    = "Symbol (decl) at /home/dev/project/src/widgets/mainwindow.h, line 120 column 17"
  ∧ lookupLine exampleEnv (lineArgs 12) twoUnits
    = createResultMap
        "Symbol (decl) at /home/dev/project/src/widgets/mainwindow.h, l"
  ∧ ¬ lookupLine_as_claimed exampleEnv (lineArgs 12) twoUnits.
Proof.
  split_and!; try (vm_compute; reflexivity).
  intros Hclaim. unfold lookupLine_as_claimed in Hclaim.
  specialize (Hclaim eq_refl eq_refl eq_refl eq_refl).
  apply createResultMap_inj in Hclaim; try done; by vm_compute in Hclaim.
Qed.

Section Lookup.
Context {CXCursor : Type} (env : Env CXCursor).

(** With a positive first kind and a last kind below [2 ^ 30], so that no
    doubling leaves the range of [int], [stringToType] returns for every
    input. *)
Lemma stringToTypeFrom_total steps i input :
  (0 < i)%Z → (EnumValue env < i * 2 ^ Z.of_nat steps)%Z →
  is_Some (stringToTypeFrom env (S steps) i input).
Proof.
  revert i. induction steps as [|steps IH]; intros i Hpos Hlast.
  - simpl. rewrite Z.mul_1_r in Hlast.
    destruct (Z.leb_spec i (EnumValue env)); [lia|done].
  - cbn [stringToTypeFrom].
    destruct (i <=? EnumValue env)%Z; [|done].
    destruct (sameIgnoringCase _ _); [done|].
    apply IH; rewrite Z.shiftl_mul_pow2 by lia; [lia|].
    rewrite Nat2Z.inj_succ, Z.pow_succ_r in Hlast by lia. lia.
Qed.

Lemma stringToType_total input :
  (0 < MethodDeclaration env)%Z → (EnumValue env < 2 ^ 30)%Z →
  is_Some (stringToType env input).
Proof.
  intros Hpos Hlast. apply (stringToTypeFrom_total 31); [done|].
  change (Z.of_nat 31) with 31%Z. nia.
Qed.

Lemma parseTypes_empty entries nodeTypes :
  Forall (λ e, e = "") entries →
  parseTypes env entries nodeTypes = Some (inl nodeTypes).
Proof.
  induction 1 as [|e entries -> _ IH]; [done|]. simpl. done.
Qed.

Lemma parseTypes_first_bad before bad after nodeTypes :
  Forall (λ e, e = "" ∨ ∃ t, stringToType env e = Some t ∧ t ≠ 0%Z) before →
  bad ≠ "" → stringToType env bad = Some 0%Z →
  parseTypes env (before ++ bad :: after) nodeTypes = Some (inr bad).
Proof.
  intros Hbefore Hne Hbad. revert nodeTypes.
  induction Hbefore as [|e before He _ IH]; intros nodeTypes; simpl.
  - rewrite decide_False by done. rewrite Hbad. by rewrite decide_True.
  - destruct (decide (e = "")); [done|].
    destruct He as [?|(t & -> & Ht)]; [done|]. by rewrite decide_False.
Qed.

Lemma parseTypes_some_bad entries nodeTypes :
  (0 < MethodDeclaration env)%Z → (EnumValue env < 2 ^ 30)%Z →
  Exists (λ e, e ≠ "" ∧ stringToType env e = Some 0%Z) entries →
  ∃ bad, bad ∈ entries ∧ bad ≠ "" ∧ stringToType env bad = Some 0%Z
         ∧ parseTypes env entries nodeTypes = Some (inr bad).
Proof.
  intros Hpos Hlast. revert nodeTypes.
  induction entries as [|e entries IH]; intros nodeTypes Hbad.
  { by apply Exists_nil in Hbad. }
  simpl. destruct (decide (e = "")) as [->|Hne].
  { apply Exists_cons in Hbad as [[? _]|Hbad]; [done|].
    destruct (IH nodeTypes Hbad) as (bad & Hin & ? & ? & ?).
    exists bad. split_and!; [by right|done..]. }
  destruct (stringToType_total e Hpos Hlast) as [t Ht]. rewrite Ht.
  destruct (decide (t = 0%Z)) as [->|Hnz].
  { exists e. split_and!; [by left|done..]. }
  apply Exists_cons in Hbad as [[_ He]|Hbad]; [congruence|].
  destruct (IH (uint (Z.lor nodeTypes t)) Hbad) as (bad & Hin & ? & ? & ?).
  exists bad. split_and!; [by right|done..].
Qed.
End Lookup.

(** C8 (the kinds of [lookup]): when [types] is absent, or every entry of it
    is empty, [mVisitThread.lookup] is called once, with all kinds except
    [Root]; and when an entry that is not empty is not the name of a kind,
    the entries before it being empty or names of kinds, the answer is
    "Can't parse type" with that entry and [mVisitThread.lookup] is not
    called; so, the kinds being positive and below [2 ^ 30], when any entry
    that is not empty is not the name of a kind, the answer is "Can't parse
    type" with such an entry. *)
Theorem lookup_kinds {CXCursor} (env : Env CXCursor) (args : Args)
    (freeArgs : list QByteArray) (st : State) :
  let entries := split "," (toByteArray (value args "types")) in
  let exceptRoot := uint (Z.land (All env) (Z.lnot (Root env))) in
  let flags := if hasArg args "regexp" then uint (Z.lor 0 (RegExp env))
               else 0%Z in
  (args !! "types" = None → Forall (λ e, e = "") entries)
  ∧ (Forall (λ e, e = "") entries →
     lookup env args freeArgs st
     = Some (createResultMap (visitLookup env freeArgs flags exceptRoot),
             mkState (mTranslationUnits st) (disposed st) (addedFiles st)
               (loads st) (lookups st ++ [(freeArgs, flags, exceptRoot)])))
  ∧ (∀ before bad after,
       entries = before ++ bad :: after →
       Forall (λ e, e = "" ∨ ∃ t, stringToType env e = Some t ∧ t ≠ 0%Z)
         before →
       bad ≠ "" → stringToType env bad = Some 0%Z →
       lookup env args freeArgs st
       = Some (createResultMap ("Can't parse type " +:+ bad), st))
  ∧ ((0 < MethodDeclaration env)%Z → (EnumValue env < 2 ^ 30)%Z →
     Exists (λ e, e ≠ "" ∧ stringToType env e = Some 0%Z) entries →
     ∃ bad, bad ∈ entries ∧ bad ≠ "" ∧ stringToType env bad = Some 0%Z
       ∧ lookup env args freeArgs st
         = Some (createResultMap ("Can't parse type " +:+ bad), st)).
Proof.
  intros entries exceptRoot flags. split_and!.
  4:{ intros Hpos Hlast Hbad. unfold lookup. fold entries.
      destruct (parseTypes_some_bad env entries 0 Hpos Hlast Hbad)
        as (bad & Hin & Hne & Hnone & ->). by exists bad. }
  - intros Habsent. subst entries. unfold value. rewrite Habsent. simpl.
    by repeat constructor.
  - intros Hempty. unfold lookup. fold entries.
    by rewrite (parseTypes_empty env entries 0 Hempty).
  - intros before bad after Hsplit Hbefore Hne Hbad. unfold lookup.
    fold entries. rewrite Hsplit.
    by rewrite (parseTypes_first_bad env before bad after 0 Hbefore Hne Hbad).
Qed.

Lemma lookup_kinds_witness :
  lookup exampleEnv {[ "types" := QBytes "class,,Bogus" ]} ["foo"] emptyState
  = Some (createResultMap "Can't parse type Bogus", emptyState).
Proof.
  destruct (lookup_kinds exampleEnv {[ "types" := QBytes "class,,Bogus" ]}
              ["foo"] emptyState) as (_ & _ & Hbad & _).
  apply (Hbad ["class"; ""] "Bogus" []); [done| |done|done].
  constructor; [right; by exists 16%Z|].
  constructor; [by left|]. constructor.
Defined.

(** C10, as stated, fails: [load] without a path finds no sentinel, and yet
    starts no load and leaves the cache as it is; and [load] of a path that
    is not a file, with the sentinel in the cache, answers "No filename
    specified". *)
Lemma load_not_as_claimed :
  ¬ load_as_claimed exampleEnv [] emptyState
  ∧ ¬ load_as_claimed exampleEnv ["/gone.cpp"] loadingGone.
Proof.
  split; unfold load_as_claimed; intros Hclaim.
  - rewrite decide_False in Hclaim by done.
    destruct Hclaim as (_ & _ & Hloads). by vm_compute in Hloads.
  - rewrite decide_True in Hclaim by done.
    destruct Hclaim as (Hresult%createResultMap_inj & _).
    by vm_compute in Hresult.
Qed.

(** C10, amended: when the path of a [load] command, resolved, is an
    existing file, the command does what the claim says: on the sentinel it
    answers "File already loading" with the path, keeps the cache and starts
    no load; otherwise it releases the handle the cache has for the path,
    sets the entry to the sentinel and starts a load.  When the path is not
    an existing file, it answers "No filename specified" and changes
    nothing. *)
Theorem load_on_existing_file {CXCursor} (env : Env CXCursor)
    (freeArgs : list QByteArray) (st : State) :
  (isFile env (loadPath env freeArgs) = true →
     load_as_claimed env freeArgs st)
  ∧ (isFile env (loadPath env freeArgs) = false →
     load env freeArgs st = (createResultMap "No filename specified", st)).
Proof.
  split; intros Hfile.
  - unfold load_as_claimed, load. fold (loadPath env freeArgs).
    rewrite Hfile. simpl.
    destruct (mTranslationUnits st !! loadPath env freeArgs) as [[|unit]|]
      eqn:Hfound.
    + by rewrite decide_True.
    + rewrite decide_False by done. simpl.
      split_and!; [done| |done]. apply insert_delete_eq.
    + rewrite decide_False by done. simpl.
      split_and!; [by rewrite app_nil_r| |done]. apply insert_delete_eq.
  - unfold load. fold (loadPath env freeArgs). by rewrite Hfile.
Qed.

Lemma load_on_existing_file_witness :
  load_as_claimed exampleEnv ["/src/a.cpp"] twoUnits.
Proof.
  by apply (load_on_existing_file exampleEnv ["/src/a.cpp"] twoUnits).
Defined.

End DaemonFacts.

(** ** Part IV.  More on the include auditor *)

Module IncludeAuditMore.
Import IncludeAudit IncludeAuditFacts IncludeWalk.

Section Explore.
Context (g : Deps) (refs : gset N).

Lemma explored_refl seen : explored g refs seen seen.
Proof. split; [done|]. intros x ??. done. Qed.

Lemma explored_trans s0 s1 s2 :
  explored g refs s0 s1 → explored g refs s1 s2 → explored g refs s0 s2.
Proof.
  intros [Hsub1 Hnew1] [Hsub2 Hnew2]. split; [set_solver|].
  intros x Hx Hx0. destruct (decide (x ∈ s1)) as [Hx1|Hx1].
  - destruct (Hnew1 x Hx1 Hx0) as [Href Hcl]. split; [done|].
    intros d Hd. specialize (Hcl d Hd). set_solver.
  - by apply Hnew2.
Qed.

(** A set that is closed as [explored] says and holds [H] holds every file
    reached from [H]. *)
Lemma explored_reaches seen H R :
  explored g refs ∅ seen → H ∈ seen → reachesOrIs g H R → R ∈ seen.
Proof.
  intros [_ Hnew] HH [->|Hreach]; [done|].
  induction Hreach as [F d R Hd HR|F d A R Hd HA _ IH].
  - destruct (Hnew F HH) as [_ Hcl]; [set_solver|].
    by apply (Hcl d Hd).
  - apply IH. destruct (Hnew F HH) as [_ Hcl]; [set_solver|].
    by apply (Hcl d Hd).
Qed.

Lemma reachesOrIs_step F d A R :
  g !! F = Some d → A ∈ includes d → reachesOrIs g A R → reachesOrIs g F R.
Proof.
  intros Hd HA [->|Hreach]; right.
  - by eapply reaches_direct.
  - by eapply reaches_step.
Qed.

Lemma anyChild_explore (visit : Dep → gset N → Outcome) children seen b seen' :
  (∀ c d s b' s', c ∈ children → g !! c = Some d →
     visit d s = Some (b', s') →
     if b' then ∃ R, reachesOrIs g c R ∧ R ∈ refs
     else explored g refs s s' ∧ c ∈ s') →
  anyChild g visit children seen = Some (b, seen') →
  if b then ∃ c R, c ∈ children ∧ reachesOrIs g c R ∧ R ∈ refs
  else explored g refs seen seen' ∧ ∀ c, c ∈ children → c ∈ seen'.
Proof.
  revert seen. induction children as [|c rest IH]; intros seen Hvisit Hrun.
  { simpl in Hrun. simplify_eq. split; [apply explored_refl|].
    by intros c ?%elem_of_nil. }
  simpl in Hrun. destruct (g !! c) as [d|] eqn:Hd; [|done].
  destruct (visit d seen) as [[b1 s1]|] eqn:Hv; [|done].
  pose proof (Hvisit c d seen b1 s1 ltac:(left) Hd Hv) as Hfirst.
  destruct b1.
  { simplify_eq. destruct Hfirst as (R & HR & Hin). exists c, R.
    split_and!; [left|done|done]. }
  destruct Hfirst as [Hexp1 Hc].
  assert (∀ c0 d0 s b' s', c0 ∈ rest → g !! c0 = Some d0 →
            visit d0 s = Some (b', s') →
            if b' then ∃ R, reachesOrIs g c0 R ∧ R ∈ refs
            else explored g refs s s' ∧ c0 ∈ s') as Hrest.
  { intros c0 d0 s b' s' Hin. apply Hvisit. by right. }
  specialize (IH s1 Hrest Hrun). destruct b.
  - destruct IH as (c0 & R & Hin & HR & Href). exists c0, R.
    split_and!; [by right|done|done].
  - destruct IH as [Hexp2 Hall]. split; [by eapply explored_trans|].
    intros c0 [->|Hin]%elem_of_cons; [|by apply Hall].
    destruct Hexp2 as [Hsub _]. set_solver.
Qed.
End Explore.

Section Needs.
Context (g : Deps) (Hwf : wf g).

(** What an answer of [validateNeedsInclude] means. *)
Lemma validateNeedsInclude_explore fuel source header seen b seen' :
  g !! fileId header = Some header →
  validateNeedsInclude fuel g source header seen = Some (b, seen') →
  if b then ∃ R, reachesOrIs g (fileId header) R
                 ∧ R ∈ dom (references source)
  else explored g (dom (references source)) seen seen'
       ∧ fileId header ∈ seen'.
Proof.
  revert header seen b seen'.
  induction fuel as [|fuel IH]; intros header seen b seen' Hh Hrun; [done|].
  rewrite validateNeedsInclude_S in Hrun.
  destruct (decide (fileId header ∈ seen)).
  { simplify_eq. split; [apply explored_refl|done]. }
  destruct (decide (fileId header ∈ dom (references source))).
  { simplify_eq. exists (fileId header). split; [by left|done]. }
  apply (anyChild_explore g (dom (references source))) in Hrun.
  - destruct b.
    + destruct Hrun as (c & R & Hc%elem_of_elements & HR & Href).
      exists R. split; [|done]. by eapply reachesOrIs_step.
    + destruct Hrun as [[Hsub Hnew] Hall]. split_and!; [split| ]; [set_solver| |set_solver].
      intros x Hx Hx0.
      destruct (decide (x = fileId header)) as [->|Hne].
      * split; [done|]. intros d Hd. simplify_eq.
        intros c Hc. by apply Hall, elem_of_elements.
      * apply Hnew; [done|set_solver].
  - intros c d s b' s' Hc Hd Hv.
    destruct (wf_lookup g c d Hwf Hd) as (Hid & _ & _).
    specialize (IH d s b' s'). rewrite Hid in IH. by apply IH.
Qed.
End Needs.

Section Reports.
Context (path : N → string) (isSystem : string → bool) (g : Deps).

(** Where a message of [checkIncludes] comes from. *)
Lemma checkIncludes_elem fuel msgs m :
  checkIncludes path isSystem fuel g = Some msgs →
  m ∈ msgs ↔
  ∃ F d, g !! F = Some d ∧ isSystem (path F) = false
    ∧ ((∃ A zs, A ∈ includes d ∧ auditInclude fuel g F d A = Some zs
                ∧ m ∈ zs)
       ∨ (∃ R refs zs, references d !! R = Some refs
            ∧ auditReference path fuel g F d (R, refs) = Some zs ∧ m ∈ zs)).
Proof.
  unfold checkIncludes. intros Hrun.
  apply fmap_Some in Hrun as (written & Hrun & ->).
  rewrite (elem_of_concat_mapM _ _ _ _ Hrun). split.
  - intros ([F d] & ys & HFd%elem_of_map_to_list & Hfile & Hin).
    unfold auditFile in Hfile; simpl in Hfile. exists F, d.
    destruct (isSystem (path F)) eqn:Hsys;
      [simplify_eq; by apply elem_of_nil in Hin|].
    destruct (mapM (auditInclude fuel g F d) _) as [unneeded|] eqn:Hun;
      [|done].
    destruct (mapM (auditReference path fuel g F d) _) as [missing|] eqn:Hmi;
      [|done].
    simplify_eq. split_and!; [done..|].
    apply elem_of_app in Hin as [Hin|Hin].
    + apply (elem_of_concat_mapM _ _ _ _ Hun) in Hin
        as (A & zs & HA%elem_of_elements & Hinc & Hin).
      left. by exists A, zs.
    + apply (elem_of_concat_mapM _ _ _ _ Hmi) in Hin
        as ([R refs] & zs & HR%elem_of_map_to_list & Href & Hin).
      right. by exists R, refs, zs.
  - intros (F & d & HFd & Hsys & Hfrom).
    assert (is_Some (auditFile path isSystem fuel g (F, d))) as [ys Hys].
    { apply mk_is_Some, mapM_is_Some_1 in Hrun.
      rewrite Forall_forall in Hrun. by apply Hrun, elem_of_map_to_list. }
    exists (F, d), ys. split_and!; [by apply elem_of_map_to_list|done|].
    unfold auditFile in Hys; simpl in Hys. rewrite Hsys in Hys.
    destruct (mapM (auditInclude fuel g F d) _) as [unneeded|] eqn:Hun;
      [|done].
    destruct (mapM (auditReference path fuel g F d) _) as [missing|] eqn:Hmi;
      [|done].
    simplify_eq. apply elem_of_app.
    destruct Hfrom as [(A & zs & HA & Hinc & Hin)|(R & refs & zs & HR & Href & Hin)].
    + left. apply (elem_of_concat_mapM _ _ _ _ Hun).
      exists A, zs. split_and!; [by apply elem_of_elements|done|done].
    + right. apply (elem_of_concat_mapM _ _ _ _ Hmi).
      exists (R, refs), zs. split_and!; [by apply elem_of_map_to_list|done..].
Qed.
End Reports.

Lemma validateNeedsInclude_answer (g : Deps) (fuel : nat)
    (source header : Dep) (H : N) :
  wf g → g !! H = Some header → size g < fuel →
  ∃ b seen', validateNeedsInclude fuel g source header ∅ = Some (b, seen')
    ∧ (b = true ↔ ∃ R, reachesOrIs g H R ∧ R ∈ dom (references source)).
Proof.
  intros Hwf Hh Hfuel.
  destruct (wf_lookup g H header Hwf Hh) as (Hid & _ & _).
  destruct (validateNeedsInclude_total g fuel source header ∅ Hwf)
    as (b & seen' & Hrun & _); [by rewrite Hid| |].
  { rewrite difference_empty_L, size_dom. lia. }
  exists b, seen'. split; [done|].
  apply (validateNeedsInclude_explore g Hwf) in Hrun; [|by rewrite Hid].
  rewrite Hid in Hrun. destruct b.
  - split; [by intros _|done].
  - split; [done|]. intros (R & HR & Href). destruct Hrun as [Hexp HH].
    pose proof (explored_reaches g _ seen' H R Hexp HH HR) as HRin.
    destruct Hexp as [_ Hnew]. destruct (Hnew R HRin); [set_solver|done].
Qed.

(** X1.  On a well-formed table, [validateNeedsInclude] started with an empty
    set returns, and it answers [true] exactly when the source references
    the header or a file reached from the header along [includes]. *)
Theorem validateNeedsInclude_finds_referenced (g : Deps) (fuel : nat)
    (source header : Dep) (H : N) :
  wf g → g !! H = Some header → size g < fuel →
  ∃ b seen', validateNeedsInclude fuel g source header ∅ = Some (b, seen')
    ∧ (b = true ↔ ∃ R, reachesOrIs g H R ∧ R ∈ dom (references source)).
Proof. apply validateNeedsInclude_answer. Qed.

Lemma validateNeedsInclude_finds_referenced_witness :
  ∃ b seen',
    validateNeedsInclude 5 chain4
      (mkDep 1 {[2%N]} {[ 4%N := {[ (1, 10, 5)%N := (4, 3, 1)%N ]} ]})
      (mkDep 2 {[3%N]} ∅) ∅ = Some (b, seen')
    ∧ (b = true ↔
       ∃ R, reachesOrIs chain4 2 R
            ∧ R ∈ dom (references
                (mkDep 1 {[2%N]} {[ 4%N := {[ (1, 10, 5)%N := (4, 3, 1)%N ]} ]}))).
Proof.
  apply (validateNeedsInclude_finds_referenced chain4 5).
  - by apply (bool_decide_unpack _).
  - done.
  - by apply (bool_decide_unpack _).
Defined.

(** X2.  [checkIncludes] writes "F includes H for no reason" exactly when F
    is a file of the table that is not a system file, F includes H, and F
    references neither H nor any file reached from H along [includes]. *)
Theorem no_reason_report_iff (path : N → string) (isSystem : string → bool)
    (g : Deps) (fuel : nat) (msgs : list message) (F H : N) :
  wf g → size g < fuel →
  checkIncludes path isSystem fuel g = Some msgs →
  IncludesForNoReason F H ∈ msgs ↔
  ∃ d, g !! F = Some d ∧ isSystem (path F) = false ∧ H ∈ includes d
    ∧ ∀ R, reachesOrIs g H R → R ∉ dom (references d).
Proof.
  intros Hwf Hfuel Hrun.
  rewrite (checkIncludes_elem path isSystem g fuel msgs _ Hrun). split.
  - intros (F' & d & HFd & Hsys & [(A & zs & HA & Hinc & Hin)
                                  |(R & refs & zs & HR & Href & Hin)]).
    + unfold auditInclude in Hinc.
      destruct (g !! A) as [h|] eqn:Hh; [|done].
      destruct (validateNeedsInclude fuel g d h ∅) as [[[] seen]|] eqn:Hv;
        simplify_eq; [by apply elem_of_nil in Hin|].
      apply list_elem_of_singleton in Hin. simplify_eq.
      destruct (wf_lookup g A h Hwf Hh) as (Hid & _ & _).
      exists d. rewrite Hid. split_and!; [done..|].
      apply (validateNeedsInclude_explore g Hwf) in Hv; [|by rewrite Hid].
      rewrite Hid in Hv. destruct Hv as [Hexp HA'].
      intros R HR. pose proof (explored_reaches g _ seen A R Hexp HA' HR).
      destruct Hexp as [_ Hnew]. destruct (Hnew R); [done|set_solver|done].
    + unfold auditReference in Href; simpl in Href.
      destruct (exempted (path R)); [simplify_eq; by apply elem_of_nil in Hin|].
      destruct (validateHasInclude fuel g R d ∅) as [[[] seen]|];
        simplify_eq; [by apply elem_of_nil in Hin|].
      by apply list_elem_of_singleton in Hin.
  - intros (d & HFd & Hsys & HH & Hnone).
    destruct (wf_lookup g F d Hwf HFd) as (_ & Hcl & _).
    destruct (Hcl H HH) as [h Hh].
    destruct (validateNeedsInclude_answer g fuel d h H Hwf Hh Hfuel)
      as (b & seen & Hv & Hb).
    destruct (wf_lookup g H h Hwf Hh) as (Hid & _ & _).
    exists F, d. split_and!; [done..|]. left.
    exists H, [IncludesForNoReason F H]. split_and!; [done| |left].
    unfold auditInclude. rewrite Hh, Hv. destruct b; [|by rewrite Hid].
    destruct (proj1 Hb eq_refl) as (R & HR & Href). by destruct (Hnone R HR).
Qed.

Lemma no_reason_report_iff_witness :
  IncludesForNoReason 2 3
    ∈ [IncludesForNoReason 2 3; IncludesForNoReason 3 4;
       ShouldInclude 1 4 [((1, 10, 5), (4, 3, 1))%N]] ↔
  ∃ d, chain4 !! 2%N = Some d ∧ underUsr (srcPath 2) = false
    ∧ 3%N ∈ includes d
    ∧ ∀ R, reachesOrIs chain4 3 R → R ∉ dom (references d).
Proof.
  apply (no_reason_report_iff srcPath underUsr chain4 5).
  - by apply (bool_decide_unpack _).
  - by apply (bool_decide_unpack _).
  - by vm_compute.
Defined.

(** X3.  [checkIncludes] writes "F should include R" exactly when F is a
    file of the table that is not a system file, F references R, the path of
    R has none of the two exempted prefixes, and R is included neither by F
    nor by a file that F includes; the reasons are the recorded pairs. *)
Theorem should_include_report_iff (path : N → string)
    (isSystem : string → bool) (g : Deps) (fuel : nat)
    (msgs : list message) (F R : N) (reasons : list (Location * Location)) :
  wf g → size g < fuel →
  checkIncludes path isSystem fuel g = Some msgs →
  ShouldInclude F R reasons ∈ msgs ↔
  ∃ d refs, g !! F = Some d ∧ isSystem (path F) = false
    ∧ references d !! R = Some refs ∧ reasons = map_to_list refs
    ∧ exempted (path R) = false
    ∧ (R ∉ includes d)
    ∧ ∀ A a, A ∈ includes d → g !! A = Some a → R ∉ includes a.
Proof.
  intros Hwf Hfuel Hrun.
  rewrite (checkIncludes_should_include path isSystem g fuel msgs F R reasons
             Hwf Hfuel Hrun).
  assert (∀ d, includedWithinTwo g R d = false ↔
            (R ∉ includes d)
            ∧ ∀ A a, A ∈ includes d → g !! A = Some a → R ∉ includes a)
    as Htwo.
  { intros d. unfold includedWithinTwo. rewrite orb_false_iff.
    rewrite bool_decide_eq_false. apply and_iff_compat_l.
    rewrite <- not_true_iff_false, existsb_exists. split.
    - intros Hno A a HA Ha HR. apply Hno. exists A.
      split; [by apply list_elem_of_In, elem_of_elements|].
      unfold includesOf. rewrite Ha. by apply bool_decide_eq_true.
    - intros Hno (A & HA%list_elem_of_In%elem_of_elements & Hinc).
      unfold includesOf in Hinc. destruct (g !! A) as [a|] eqn:Ha; [|done].
      apply bool_decide_eq_true in Hinc. by apply (Hno A a). }
  split.
  - intros (d & refs & ? & ? & ? & ? & ? & [??]%Htwo). by exists d, refs.
  - intros (d & refs & ? & ? & ? & ? & ? & ? & ?). exists d, refs.
    split_and!; try done. by apply Htwo.
Qed.

Lemma should_include_report_iff_witness :
  ShouldInclude 1 4 [((1, 10, 5), (4, 3, 1))%N]
    ∈ [IncludesForNoReason 2 3; IncludesForNoReason 3 4;
       ShouldInclude 1 4 [((1, 10, 5), (4, 3, 1))%N]] ↔
  ∃ d refs, chain4 !! 1%N = Some d ∧ underUsr (srcPath 1) = false
    ∧ references d !! 4%N = Some refs
    ∧ [((1, 10, 5), (4, 3, 1))%N] = map_to_list refs
    ∧ exempted (srcPath 4) = false
    ∧ (4%N ∉ includes d)
    ∧ ∀ A a, A ∈ includes d → chain4 !! A = Some a → 4%N ∉ includes a.
Proof.
  apply (should_include_report_iff srcPath underUsr chain4 5).
  - by apply (bool_decide_unpack _).
  - by apply (bool_decide_unpack _).
  - by vm_compute.
Defined.

(** X4.  [handleInclude] gives both files a node, adds the included file to
    the includes of the including file and to nothing else, keeps the
    references of the including file, leaves every other node as it was,
    and a second call for the same pair changes nothing. *)
Theorem handleInclude_records_edge (fromFile included : N) (g : Deps) :
  let g' := handleInclude fromFile included g in
  (∃ d', g' !! fromFile = Some d'
     ∧ fileId d' = fileId (nodeAt g fromFile)
     ∧ includes d' = {[included]} ∪ includes (nodeAt g fromFile)
     ∧ references d' = references (nodeAt g fromFile))
  ∧ (included ≠ fromFile → g' !! included = Some (nodeAt g included))
  ∧ (∀ K, K ≠ fromFile → K ≠ included → g' !! K = g !! K)
  ∧ handleInclude fromFile included g' = g'.
Proof.
  intros g'.
  assert (∀ g0 : Deps, nodeAt (<[included := nodeAt g0 included]> g0) fromFile
                       = nodeAt g0 fromFile) as Hsame.
  { intros g0. unfold nodeAt at 1.
    destruct (decide (included = fromFile)) as [->|Hne].
    - by rewrite lookup_insert_eq.
    - by rewrite lookup_insert_ne. }
  assert (nodeAt (<[fromFile := nodeAt g fromFile]> g) fromFile
          = nodeAt g fromFile) as Hfrom.
  { unfold nodeAt at 1. by rewrite lookup_insert_eq. }
  assert (g' !! fromFile
          = Some (mkDep (fileId (nodeAt g fromFile))
                    ({[included]} ∪ includes (nodeAt g fromFile))
                    (references (nodeAt g fromFile)))) as Hnode.
  { subst g'. unfold handleInclude. rewrite lookup_insert_eq.
    by rewrite Hsame, Hfrom. }
  split_and!.
  - eexists. split; [exact Hnode|done].
  - intros Hne. subst g'. unfold handleInclude.
    rewrite lookup_insert_ne by done. rewrite lookup_insert_eq.
    unfold nodeAt at 1. by rewrite lookup_insert_ne.
  - intros K HK1 HK2. subst g'. unfold handleInclude.
    by rewrite !lookup_insert_ne.
  - unfold handleInclude at 1.
    assert (<[fromFile := nodeAt g' fromFile]> g' = g') as ->.
    { apply insert_id. unfold nodeAt. by rewrite Hnode. }
    assert (<[included := nodeAt g' included]> g' = g') as ->.
    { apply insert_id. unfold nodeAt.
      destruct (decide (included = fromFile)) as [->|Hne].
      - by rewrite Hnode.
      - subst g'. unfold handleInclude. rewrite lookup_insert_ne by done.
        by rewrite lookup_insert_eq. }
    apply insert_id. rewrite Hnode. unfold nodeAt. rewrite Hnode. simpl.
    do 2 f_equal. set_solver.
Qed.

(** X5.  [handleReference] ignores a null location and a location in the
    same file; with both nodes in the table it records the referenced
    location under the referring one, where a later reference from the same
    location replaces an earlier one, and changes no other entry and no
    includes; without one of the nodes an assert fails. *)
Theorem handleReference_records (loc refLoc : Location) (g : Deps) :
  handleReference loc None g = Some g
  ∧ (refLoc.1.1 = loc.1.1 → handleReference loc (Some refLoc) g = Some g)
  ∧ (refLoc.1.1 ≠ loc.1.1 →
     g !! loc.1.1 = None ∨ g !! refLoc.1.1 = None →
     handleReference loc (Some refLoc) g = None)
  ∧ (∀ dep refDep,
       refLoc.1.1 ≠ loc.1.1 →
       g !! loc.1.1 = Some dep → g !! refLoc.1.1 = Some refDep →
       ∃ g', handleReference loc (Some refLoc) g = Some g'
         ∧ referenceAt g' loc.1.1 (fileId refDep) loc = Some refLoc
         ∧ (∀ F R l, (F, R, l) ≠ (loc.1.1, fileId refDep, loc) →
              referenceAt g' F R l = referenceAt g F R l)
         ∧ (∀ F, includes <$> g' !! F = includes <$> g !! F)).
Proof.
  split_and!.
  - done.
  - intros Heq. unfold handleReference. by rewrite decide_True.
  - intros Hne Hmiss. unfold handleReference. rewrite decide_False by done.
    destruct Hmiss as [->| ->]; [done|]. by destruct (g !! loc.1.1).
  - intros dep refDep Hne Hdep Href. unfold handleReference.
    rewrite decide_False by done. rewrite Hdep, Href.
    eexists. split; [done|]. split_and!.
    + unfold referenceAt. rewrite lookup_insert_eq. simpl.
      by rewrite !lookup_insert_eq.
    + intros F R l Hother. unfold referenceAt.
      destruct (decide (loc.1.1 = F)) as [<-|HF].
      2:{ by rewrite lookup_insert_ne. }
      rewrite lookup_insert_eq, Hdep. simpl.
      destruct (decide (fileId refDep = R)) as [<-|HR].
      2:{ by rewrite lookup_insert_ne. }
      rewrite lookup_insert_eq.
      assert (loc ≠ l) as Hl by (intros <-; done).
      rewrite lookup_insert_ne by done.
      by destruct (references dep !! fileId refDep).
    + intros F. destruct (decide (loc.1.1 = F)) as [<-|HF].
      * by rewrite lookup_insert_eq, Hdep.
      * by rewrite lookup_insert_ne.
Qed.

Lemma handleReference_records_witness :
  ∃ g', handleReference (1, 12, 2)%N (Some (4, 8, 1)%N) chain4 = Some g'
    ∧ referenceAt g' 1 4 (1, 12, 2)%N = Some (4, 8, 1)%N
    ∧ (∀ F R l, (F, R, l) ≠ (1%N, 4%N, (1, 12, 2)%N) →
         referenceAt g' F R l = referenceAt chain4 F R l)
    ∧ (∀ F, includes <$> g' !! F = includes <$> chain4 !! F).
Proof.
  destruct (handleReference_records (1, 12, 2)%N (4, 8, 1)%N chain4)
    as (_ & _ & _ & Hrec).
  apply (Hrec (mkDep 1 {[2%N]} {[ 4%N := {[ (1, 10, 5)%N := (4, 3, 1)%N ]} ]})
           (mkDep 4 ∅ ∅)); done.
Defined.

Section WalkFacts.
Context {CXCursor : Type} (clang : Walker CXCursor).

Lemma built_checkIncludesAt location cursor (g g' : Deps) :
  built g → location.1.1 ≠ 0%N →
  (∀ c fileId, includedFileId clang c = Some fileId → fileId ≠ 0%N) →
  checkIncludesAt clang location cursor g = Some g' → built g'.
Proof.
  intros Hg Hloc Hids Hrun. unfold checkIncludesAt in Hrun.
  destruct (isInclusionDirective clang cursor).
  - simplify_eq. unfold handleIncludeOf.
    destruct (includedFileId clang cursor) as [fileId|] eqn:Hid; [|done].
    apply built_handleInclude; [done..|]. by eapply Hids.
  - destruct (_ && _); [|by simplify_eq].
    unfold handleReferenceOf in Hrun.
    destruct (isNamespace clang _); [by simplify_eq|].
    by eapply built_handleReference.
Qed.

Lemma built_walk visited (g g' : Deps) :
  built g → Forall (λ v, v.1.1.1 ≠ 0%N) visited →
  (∀ c fileId, includedFileId clang c = Some fileId → fileId ≠ 0%N) →
  walk clang visited g = Some g' → built g'.
Proof.
  intros Hg Hlocs Hids. revert g Hg.
  induction Hlocs as [|[location cursor] rest Hloc _ IH]; intros g Hg Hrun;
    simpl in Hrun; [by simplify_eq|].
  destruct (checkIncludesAt clang location cursor g) as [g1|] eqn:Hstep;
    [|done].
  apply (IH g1); [|done]. by eapply built_checkIncludesAt.
Qed.
End WalkFacts.

(** X6.  Whatever cursors the walk visits, if it starts from an empty table,
    every location and every included file has a file id other than 0, and
    no assert of [handleReference] fails, then the table it builds is well
    formed and the audit at the end of the walk returns, with one unit of
    budget per file and one more. *)
Theorem audit_after_walk_returns {CXCursor} (clang : Walker CXCursor)
    (path : N → string) (isSystem : string → bool)
    (visited : list (Location * CXCursor)) (g : Deps) :
  Forall (λ v, v.1.1.1 ≠ 0%N) visited →
  (∀ c fileId, includedFileId clang c = Some fileId → fileId ≠ 0%N) →
  walk clang visited ∅ = Some g →
  wf g ∧ is_Some (checkIncludes path isSystem (S (size g)) g).
Proof.
  intros Hlocs Hids Hrun.
  destruct (built_walk clang visited ∅ g built_empty Hlocs Hids Hrun)
    as [Hwf _].
  split; [done|]. apply checkIncludes_total; [done|lia].
Qed.

Lemma audit_after_walk_returns_witness :
  ∃ g, walk exampleWalker exampleVisited ∅ = Some g
    ∧ wf g ∧ is_Some (checkIncludes srcPath underUsr (S (size g)) g).
Proof.
  eexists. split; [by vm_compute|].
  apply (audit_after_walk_returns exampleWalker srcPath underUsr
           exampleVisited).
  - by repeat constructor.
  - intros [|[|c]] fileId Hid; simpl in Hid; by simplify_eq.
  - by vm_compute.
Defined.

End IncludeAuditMore.

(** ** Part V.  More on the cursor records *)

Module AstDumpMore.
Import IncludeAudit AstDump AstDumpFacts AstWalk.

Section Walk.
Context {CXCursor : Type} (clang : Clang CXCursor).

(** A walk whose calls return leaves the records as they were and keeps
    the entries of [mCursorsByUsr]. *)
Lemma dumpAll_keeps fuel visited st st' :
  dumpAll clang fuel visited st = Some (tt, st') →
  records st' = records st ∧ mCursorsByUsr st ⊆ mCursorsByUsr st'.
Proof.
  revert st. induction visited as [|[cursor location] rest IH];
    intros st Hrun; simpl in Hrun.
  { unfold ret in Hrun. by simplify_eq. }
  apply bind_Some in Hrun as (r & s1 & Hcall & Hrun).
  destruct (IH s1 Hrun) as [Hheap Hsub].
  rewrite Hheap, (addCursor_heap clang _ _ _ _ _ _ Hcall). split; [done|].
  etrans; [|exact Hsub].
  by apply (addCursor_entries clang fuel _ cursor (Some location) st r s1
              Hcall).
Qed.
End Walk.

(** X7.  A call of [addCursor] that returns leaves the records exactly as
    they were, the record it has made being destroyed when it returns, and
    keeps every entry of [mCursorsByUsr] with its address. *)
Theorem addCursor_keeps_what_was_there {CXCursor} (clang : Clang CXCursor)
    (fuel : nat) (cursor : CXCursor) (loc : option Location)
    (st st' : State) (r : ptr) :
  addCursor clang fuel cursor loc st = Some (r, st') →
  records st' = records st ∧ mCursorsByUsr st ⊆ mCursorsByUsr st'.
Proof.
  intros Hrun. split; [by eapply addCursor_heap|].
  by apply (addCursor_entries clang fuel _ cursor loc st r st' Hrun).
Qed.

Lemma addCursor_keeps_what_was_there_witness :
  records dumped = records initial
  ∧ mCursorsByUsr initial ⊆ mCursorsByUsr dumped.
Proof.
  apply (addCursor_keeps_what_was_there exampleClang 4 4 None initial dumped
           None).
  vm_compute. reflexivity.
Defined.



(** X9.  [addCursor] does not return on a cursor that has a location, is
    not registered yet and is its own referenced cursor: the call on the
    referenced cursor comes before the registration and meets the same
    cursor again, whatever the depth. *)
Theorem addCursor_recurs_on_own_reference {CXCursor}
    (clang : Clang CXCursor) (cursor : CXCursor) (fuel : nat)
    (loc : option Location) (st : State) :
  is_Some (createLocation clang cursor) →
  getCursorReferenced clang cursor = cursor →
  equalCursors clang cursor (nullCursor clang) = false →
  getCursorUSR clang cursor = ""
  ∨ mCursorsByUsr st !! getCursorUSR clang cursor = None →
  addCursor clang fuel cursor loc st = None.
Proof. apply addCursor_own_reference. Qed.

Lemma addCursor_recurs_on_own_reference_witness :
  addCursor declarationClang 1000 4 None initial = None.
Proof.
  apply (addCursor_recurs_on_own_reference declarationClang 4 1000 None
           initial).
  - by eexists.
  - done.
  - done.
  - right. done.
Defined.

(** X10.  [addCursor] does not return on a cursor that has a location, has
    no USR and is its own canonical cursor: without USR the cursor is never
    registered, and the call on the canonical cursor meets it again,
    whatever the depth. *)
Theorem addCursor_recurs_on_own_canonical {CXCursor}
    (clang : Clang CXCursor) (cursor : CXCursor) (fuel : nat)
    (loc : option Location) (st : State) :
  is_Some (createLocation clang cursor) →
  getCursorUSR clang cursor = "" →
  getCanonicalCursor clang cursor = cursor →
  addCursor clang fuel cursor loc st = None.
Proof.
  intros [l Hloc] Husr Hself. revert loc st.
  induction fuel as [|fuel IH]; intros loc st; [done|].
  destruct (addCursor clang (S fuel) cursor loc st) as [[r st']|] eqn:Hrun;
    [exfalso|done].
  rewrite addCursor_S in Hrun.
  assert (is_Some (resolveLocation clang cursor loc)) as [l' Hl'].
  { unfold resolveLocation. destruct loc; [by eexists|by rewrite Hloc]. }
  rewrite Hl' in Hrun.
  apply bind_Some in Hrun as (found & s & Hfound & Hrun).
  rewrite decide_True in Hfound by done. unfold ret in Hfound. simplify_eq.
  apply bind_Some in Hrun as (c & s0 & _ & Hrun).
  apply bind_Some in Hrun as ([] & s1 & Hfill & _).
  unfold fill in Hfill.
  apply bind_Some in Hfill as ([] & s2 & _ & Hfill).
  apply bind_Some in Hfill as ([] & s3 & _ & Hfill).
  apply bind_Some in Hfill as ([] & s4 & _ & Hothers).
  unfold linkOthers in Hothers.
  apply bind_Some in Hothers as ([] & s5 & Hlink & _).
  unfold link in Hlink. apply bind_Some in Hlink as (p & s6 & Hcall & _).
  rewrite Hself, IH in Hcall. done.
Qed.

Lemma addCursor_recurs_on_own_canonical_witness :
  addCursor expressionClang 1000 5 None initial = None.
Proof.
  by apply (addCursor_recurs_on_own_canonical expressionClang 5 1000 None
              initial).
Defined.

(** X11.  The calls of [addCursor] for a walk, started with empty tables.
    When they have all returned, no record is left, and for every visited
    cursor that has a USR [mCursorsByUsr] has an address, at which there is
    no record.  And they do not all return when the first cursor visited,
    with the location [visit] has computed for it, is its own referenced
    cursor, which is what libclang answers for a declaration. *)
Theorem dumpAll_leaves_dangling_entries {CXCursor} (clang : Clang CXCursor)
    (fuel : nat) (visited : list (CXCursor * Location)) :
  (∀ st', dumpAll clang fuel visited initial = Some (tt, st') →
     records st' = ∅
     ∧ ∀ cursor location, (cursor, location) ∈ visited →
         getCursorUSR clang cursor ≠ "" →
         ∃ p, mCursorsByUsr st' !! getCursorUSR clang cursor = Some p
              ∧ records st' !! p = None)
  ∧ (∀ cursor location rest, visited = (cursor, location) :: rest →
       createLocation clang cursor = Some location →
       getCursorReferenced clang cursor = cursor →
       equalCursors clang cursor (nullCursor clang) = false →
       dumpAll clang fuel visited initial = None).
Proof.
  split.
  - intros st' Hrun.
    destruct (dumpAll_keeps clang fuel visited initial st' Hrun)
      as [Hheap _].
    split; [done|]. intros cursor location Hin Husr.
    assert (is_Some (mCursorsByUsr st' !! getCursorUSR clang cursor))
      as [p Hp].
    { revert Hrun. generalize initial.
      induction visited as [|[c l] rest IH]; intros st Hrun;
        [by apply elem_of_nil in Hin|].
      simpl in Hrun. apply bind_Some in Hrun as (r & s1 & Hcall & Hrun).
      apply elem_of_cons in Hin as [Heq|Hin]; [|by eapply IH].
      simplify_eq.
      destruct (addCursor_registers clang fuel c (Some l) st r s1 Hcall)
        as [a Ha]; [by eexists|done|].
      exists a.
      destruct (dumpAll_keeps clang fuel rest s1 st' Hrun) as [_ Hsub].
      by eapply lookup_weaken. }
    exists p. split; [done|]. by rewrite Hheap.
  - intros cursor location rest -> Hloc Hself Hnull. simpl.
    apply bind_None_l.
    apply addCursor_own_reference; [by eexists|done|done|by right].
Qed.

Lemma dumpAll_leaves_dangling_entries_witness :
  ∃ st', dumpAll exampleClang 4 exampleDump initial = Some (tt, st')
    ∧ records st' = ∅
    ∧ ∃ p, mCursorsByUsr st' !! getCursorUSR exampleClang 3 = Some p
           ∧ records st' !! p = None.
Proof.
  eexists. split; [vm_compute; reflexivity|].
  destruct (dumpAll_leaves_dangling_entries exampleClang 4 exampleDump)
    as [Hreturns _].
  destruct (Hreturns _ ltac:(vm_compute; reflexivity)) as [Hheap Hall].
  split; [exact Hheap|].
  apply (Hall 3 (1, 1, 22)%N); [|done].
  unfold exampleDump. apply elem_of_cons. right. apply elem_of_cons. by left.
Defined.

End AstDumpMore.

(** ** Part VI.  More on the command handlers *)

Module DaemonMore.
Import Daemon DaemonFacts DaemonCommands.

(** *** [joined] *)

Lemma append_cons (x : Ascii.ascii) (a b : string) :
  String x a +:+ b = String x (a +:+ b).
Proof. reflexivity. Qed.

Lemma append_nil (b : string) : "" +:+ b = b.
Proof. reflexivity. Qed.

Lemma append_assoc (a b c : string) : (a +:+ b) +:+ c = a +:+ (b +:+ c).
Proof.
  induction a as [|x a IH]; [done|]. by rewrite !append_cons, IH.
Qed.

Lemma append_empty_r (a : string) : a +:+ "" = a.
Proof.
  induction a as [|x a IH]; [done|]. by rewrite append_cons, IH.
Qed.

Lemma substring_prefix (a b : string) :
  String.substring 0 (String.length a) (a +:+ b) = a.
Proof.
  induction a as [|x a IH]; [by destruct b|].
  rewrite append_cons. simpl. by rewrite IH.
Qed.

Lemma chop1_newline (a : string) : chop1 (a +:+ newline) = a.
Proof.
  unfold chop1. rewrite length_append. simpl.
  replace (String.length a + 1 - 1) with (String.length a) by lia.
  apply substring_prefix.
Qed.

Lemma foldl_lines (acc : string) (container : list QByteArray) :
  foldl (λ acc f, acc +:+ f +:+ newline) acc container
  = acc +:+ foldl (λ acc f, acc +:+ f +:+ newline) "" container.
Proof.
  revert acc. induction container as [|f rest IH]; intros acc; simpl.
  { by rewrite append_empty_r. }
  rewrite (IH (acc +:+ f +:+ newline)), (IH ("" +:+ f +:+ newline)).
  by rewrite append_nil, append_assoc.
Qed.

Lemma lines_concat (f : QByteArray) (rest : list QByteArray) :
  foldl (λ acc f, acc +:+ f +:+ newline) "" (f :: rest)
  = String.concat newline (f :: rest) +:+ newline.
Proof.
  revert f. induction rest as [|g rest IH]; intros f.
  { done. }
  change (foldl (λ acc f, acc +:+ f +:+ newline) ("" +:+ f +:+ newline)
            (g :: rest)
          = (f +:+ newline +:+ String.concat newline (g :: rest)) +:+ newline).
  rewrite foldl_lines, IH. by rewrite append_nil, !append_assoc.
Qed.

Lemma joined_concat (container : list QByteArray) :
  joined container = String.concat newline container.
Proof.
  unfold joined. destruct container as [|f rest]; [done|].
  rewrite lines_concat.
  rewrite decide_False; [apply chop1_newline|].
  intros Hempty%(f_equal String.length). rewrite length_append in Hempty.
  simpl in Hempty. lia.
Qed.

(** X12.  [joined] puts a line feed between the elements of the container
    and none after the last one; an empty container gives the empty byte
    array. *)
Theorem joined_separates (container : list QByteArray) :
  joined container = String.concat newline container.
Proof. apply joined_concat. Qed.

(** *** [removeSourceFile] *)

Section Remove.
Context {CXCursor : Type} (env : Env CXCursor).

Lemma removeLoop_no_match regexp pattern keys units released removed :
  Forall (λ key, is_Some (units !! key)
                 ∧ matchesKey env regexp pattern key = false) keys →
  removeLoop env regexp pattern keys units released removed
  = Some (units, released, removed).
Proof.
  induction 1 as [|key rest [[unit Hunit] Hm] _ IH]; [done|].
  simpl. by rewrite Hunit, Hm.
Qed.

Lemma removeLoop_removed regexp pattern keys units released removed
    units' released' removed' :
  removeLoop env regexp pattern keys units released removed
  = Some (units', released', removed') →
  length removed'
  = length removed
    + length (filter (λ key, matchesKey env regexp pattern key = true) keys).
Proof.
  revert units released removed.
  induction keys as [|key rest IH]; intros units released removed Hrun.
  { simpl in Hrun. simplify_eq. simpl. lia. }
  simpl in Hrun. destruct (units !! key) as [unit|]; [|done].
  rewrite filter_cons.
  destruct (matchesKey env regexp pattern key) eqn:Hm.
  - destruct rest as [|next rest']; [done|].
    rewrite decide_True by done. apply IH in Hrun. rewrite Hrun.
    rewrite length_app. simpl. lia.
  - rewrite decide_False by done. by apply IH in Hrun.
Qed.

End Remove.

(** X13.  [remove] with one free argument that is not empty (and, with
    [regexp] or [r], a valid expression), when no key of the cache matches
    it: the answer is "No matches for" with the argument, and the daemon is
    as it was: no unit is erased or released. *)
Theorem removeSourceFile_without_match {CXCursor} (env : Env CXCursor)
    (order : list Path) (args : Args) (first : QByteArray) (st : State) :
  let regexp := hasArg args "regexp" || hasArg args "r" in
  first ≠ "" →
  (regexp = true → rxIsValid env first = true) →
  (∀ key, key ∈ order →
     is_Some (mTranslationUnits st !! key)
     ∧ matchesKey env regexp first key = false) →
  removeSourceFile env order args [first] st
  = Some (createResultMap ("No matches for " +:+ first), st).
Proof.
  intros regexp Hne Hvalid Hnone. unfold removeSourceFile. fold regexp.
  rewrite decide_False by done.
  rewrite (bool_decide_eq_false_2 (first = "")) by done.
  rewrite orb_false_r.
  assert (regexp && negb (rxIsValid env first) = false) as ->.
  { destruct regexp; [|done]. by rewrite Hvalid. }
  rewrite removeLoop_no_match by by apply Forall_forall.
  rewrite decide_True by done. by destruct st.
Qed.

Lemma removeSourceFile_without_match_witness :
  removeSourceFile exampleEnv ["/src/a.cpp"; "/src/b.h"] ∅ ["main"] twoUnits
  = Some (createResultMap "No matches for main", twoUnits).
Proof.
  apply (removeSourceFile_without_match exampleEnv _ ∅ "main" twoUnits).
  - done.
  - done.
  - intros key Hkey. repeat (apply elem_of_cons in Hkey as [->|Hkey]).
    + split; [by eexists|]. vm_compute. reflexivity.
    + split; [by eexists|]. vm_compute. reflexivity.
    + by apply elem_of_nil in Hkey.
Defined.

(** X14.  [remove] with one free argument that is not empty (and, with
    [regexp] or [r], a valid expression), when it returns, the iterator
    having visited every key once: the keys that match are erased from the
    cache and their units are released, in the order of the iteration; the
    other entries are kept, nothing else of the daemon changes, and the
    answer says "No matches for" exactly when no key matched. *)
Theorem removeSourceFile_erases_matching {CXCursor} (env : Env CXCursor)
    (order : list Path) (args : Args) (first : QByteArray) (st st' : State)
    (result : Args) :
  let regexp := hasArg args "regexp" || hasArg args "r" in
  let matching := filter (λ key, matchesKey env regexp first key = true) order in
  NoDup order → first ≠ "" →
  (regexp = true → rxIsValid env first = true) →
  removeSourceFile env order args [first] st = Some (result, st') →
  (∀ key, mTranslationUnits st' !! key
          = if bool_decide (key ∈ matching) then None
            else mTranslationUnits st !! key)
  ∧ disposed st'
    = disposed st ++ omap (λ key, mTranslationUnits st !! key) matching
  ∧ addedFiles st' = addedFiles st ∧ loads st' = loads st
  ∧ lookups st' = lookups st
  ∧ (result = createResultMap ("No matches for " +:+ first) ↔ matching = []).
Proof.
  intros regexp matching Hnd Hne Hvalid. unfold removeSourceFile.
  fold regexp. rewrite decide_False by done.
  rewrite (bool_decide_eq_false_2 (first = "")) by done.
  rewrite orb_false_r.
  assert (regexp && negb (rxIsValid env first) = false) as ->.
  { destruct regexp; [|done]. by rewrite Hvalid. }
  destruct (removeLoop _ _ _ _ _ _ _) as [[[units released] removed]|]
    eqn:Hloop; [|done].
  destruct (removeLoop_erases env _ _ _ _ _ _ _ _ _ Hnd Hloop)
    as [Hunits Hreleased].
  apply removeLoop_removed in Hloop. simpl in Hloop. fold matching in Hloop.
  assert (removed = [] ↔ matching = []) as Hnone.
  { destruct removed, matching; simpl in Hloop; done. }
  assert (∀ key, bool_decide (key ∈ order) && matchesKey env regexp first key
                 = bool_decide (key ∈ matching)) as Hsame.
  { intros key. subst matching.
    destruct (matchesKey env regexp first key) eqn:Hm.
    - rewrite andb_true_r. apply bool_decide_ext.
      rewrite list_elem_of_filter. naive_solver.
    - rewrite andb_false_r. symmetry. apply bool_decide_eq_false_2.
      rewrite list_elem_of_filter. intros [? _]. congruence. }
  intros Hrun.
  assert (st' = mkState units released (addedFiles st) (loads st) (lookups st))
    as ->.
  { by destruct (decide (removed = [])); simplify_eq. }
  simpl. split_and!; try done.
  - intros key. by rewrite Hunits, Hsame.
  - destruct (decide (removed = [])) as [Hno|Hsome]; simplify_eq.
    + split; [by intros _; apply Hnone|done].
    + split; [|by intros ?%Hnone].
      intros Heq%createResultMap_inj. exfalso.
      apply (f_equal (λ text, String.get 0 text)) in Heq. done.
Qed.

Lemma removeSourceFile_erases_matching_witness :
  ∃ st', removeSourceFile exampleEnv ["/src/a.cpp"; "/src/b.h"] ∅ ["a.cpp"]
           twoUnits
         = Some (createResultMap "Removed /src/b.h", st')
  ∧ mTranslationUnits st' !! "/src/a.cpp" = None
  ∧ disposed st' = [1%N].
Proof.
  eexists. split; [vm_compute; reflexivity|].
  destruct (removeSourceFile_erases_matching exampleEnv
              ["/src/a.cpp"; "/src/b.h"] ∅ "a.cpp" twoUnits _ _
              ltac:(by apply NoDup_cons; split;
                      [rewrite list_elem_of_singleton|apply NoDup_singleton])
              ltac:(done) ltac:(done) ltac:(vm_compute; reflexivity))
    as (Hunits & Hreleased & _).
  split; [|exact Hreleased]. exact (Hunits "/src/a.cpp").
Defined.

(** *** [stringToType] *)

Section Kinds.
Context {CXCursor : Type} (env : Env CXCursor).

Lemma stringToTypeFrom_result steps i input t :
  (0 < i)%Z →
  stringToTypeFrom env steps i input = Some t →
  (t ≠ 0%Z →
     ∃ k : nat, t = (i * 2 ^ Z.of_nat k)%Z ∧ (t <= EnumValue env)%Z
       ∧ sameIgnoringCase (typeToName env t) input = true
       ∧ ∀ j : nat, j < k →
           sameIgnoringCase (typeToName env (i * 2 ^ Z.of_nat j)) input = false)
  ∧ (t = 0%Z →
     ∀ k : nat, (i * 2 ^ Z.of_nat k <= EnumValue env)%Z →
       sameIgnoringCase (typeToName env (i * 2 ^ Z.of_nat k)) input = false).
Proof.
  revert i t. induction steps as [|steps IH]; intros i t Hpos Hrun; [done|].
  cbn [stringToTypeFrom] in Hrun.
  destruct (Z.leb_spec i (EnumValue env)) as [Hle|Hgt].
  - destruct (sameIgnoringCase (typeToName env i) input) eqn:Hname.
    + simplify_eq. split; [|lia]. intros _. exists 0. simpl.
      rewrite Z.mul_1_r. split_and!; [done..|]. intros j Hj. lia.
    + rewrite Z.shiftl_mul_pow2 in Hrun by lia.
      change (2 ^ 1)%Z with 2%Z in Hrun.
      destruct (IH (i * 2)%Z t ltac:(lia) Hrun) as [Hsome Hnone].
      assert (∀ k : nat, (i * 2 * 2 ^ Z.of_nat k
                          = i * 2 ^ Z.of_nat (S k))%Z) as Hpow.
      { intros k. rewrite Nat2Z.inj_succ, Z.pow_succ_r by lia. lia. }
      split.
      * intros Hnz. destruct (Hsome Hnz) as (k & -> & Hmax & Hsame & Hbelow).
        exists (S k). rewrite <- Hpow. split_and!; [done..|].
        intros [|j] Hj; [by simpl; rewrite Z.mul_1_r|].
        rewrite <- Hpow. apply Hbelow. lia.
      * intros Hz [|k] Hk; [by simpl; rewrite Z.mul_1_r|].
        rewrite <- Hpow in *. by apply Hnone.
  - simplify_eq. split; [done|]. intros _ k Hk.
    assert (0 < 2 ^ Z.of_nat k)%Z by (apply Z.pow_pos_nonneg; lia). nia.
Qed.

Lemma stringToTypeFrom_lowered steps i input input' :
  lowered input = lowered input' →
  stringToTypeFrom env steps i input = stringToTypeFrom env steps i input'.
Proof.
  intros Hsame. revert i. induction steps as [|steps IH]; intros i; [done|].
  cbn [stringToTypeFrom]. unfold sameIgnoringCase. rewrite Hsame.
  by rewrite IH.
Qed.

End Kinds.

(** X15.  [stringToType], the first kind being positive: a result other
    than [Node::None] is a kind of the enumeration, the first kind shifted
    left some number of times and at most [EnumValue]; its name is the input
    up to the case of letters, and no kind before it has such a name.  The
    result [Node::None] means that no kind up to [EnumValue] has such a
    name. *)
Theorem stringToType_sound {CXCursor} (env : Env CXCursor)
    (input : QByteArray) (t : Z) :
  (0 < MethodDeclaration env)%Z →
  stringToType env input = Some t →
  (t ≠ 0%Z →
     ∃ k : nat, t = (MethodDeclaration env * 2 ^ Z.of_nat k)%Z
       ∧ (t <= EnumValue env)%Z
       ∧ sameIgnoringCase (typeToName env t) input = true
       ∧ ∀ j : nat, j < k →
           sameIgnoringCase
             (typeToName env (MethodDeclaration env * 2 ^ Z.of_nat j)) input
           = false)
  ∧ (t = 0%Z →
     ∀ k : nat, (MethodDeclaration env * 2 ^ Z.of_nat k <= EnumValue env)%Z →
       sameIgnoringCase
         (typeToName env (MethodDeclaration env * 2 ^ Z.of_nat k)) input
       = false).
Proof. intros Hpos Hrun. by apply (stringToTypeFrom_result env 32). Qed.

Lemma stringToType_sound_witness :
  ∃ k : nat, 16%Z = (MethodDeclaration exampleEnv * 2 ^ Z.of_nat k)%Z
    ∧ sameIgnoringCase (typeToName exampleEnv 16) "CLASS" = true.
Proof.
  destruct (stringToType_sound exampleEnv "CLASS" 16
              ltac:(vm_compute; reflexivity) ltac:(vm_compute; reflexivity))
    as [Hsome _].
  destruct (Hsome ltac:(done)) as (k & Hk & _ & Hname & _).
  by exists k.
Defined.

(** X16.  [stringToType] does not tell apart inputs that differ in the case
    of letters only. *)
Theorem stringToType_ignores_case {CXCursor} (env : Env CXCursor)
    (input input' : QByteArray) :
  lowered input = lowered input' →
  stringToType env input = stringToType env input'.
Proof.
  intros Hsame. unfold stringToType.
  exact (stringToTypeFrom_lowered env 32 _ input input' Hsame).
Qed.

Lemma stringToType_ignores_case_witness :
  stringToType exampleEnv "Class" = stringToType exampleEnv "cLASS".
Proof.
  apply (stringToType_ignores_case exampleEnv "Class" "cLASS").
  vm_compute. reflexivity.
Defined.

(** *** The kinds of [lookup] *)

Lemma log2_below (a : Z) : (0 <= a < 2 ^ 32)%Z → (Z.log2 a < 32)%Z.
Proof.
  intros [Hlo Hhi]. destruct (decide (a = 0%Z)) as [->|Hnz]; [done|].
  apply Z.log2_lt_pow2; lia.
Qed.

Lemma lor_below (a b : Z) :
  (0 <= a < 2 ^ 32)%Z → (0 <= b < 2 ^ 32)%Z → (0 <= Z.lor a b < 2 ^ 32)%Z.
Proof.
  intros Ha Hb.
  assert (0 <= Z.lor a b)%Z as Hlo by (apply Z.lor_nonneg; lia).
  split; [done|].
  destruct (decide (Z.lor a b = 0%Z)) as [->|Hnz]; [done|].
  apply Z.log2_lt_pow2; [lia|]. rewrite Z.log2_lor by lia.
  pose proof (log2_below a Ha). pose proof (log2_below b Hb). lia.
Qed.

Section Mask.
Context {CXCursor : Type} (env : Env CXCursor).
Hypothesis first_positive : (0 < MethodDeclaration env)%Z.
Hypothesis last_small : (EnumValue env < 2 ^ 30)%Z.

Lemma stringToType_range input t :
  stringToType env input = Some t → t ≠ 0%Z → (0 < t < 2 ^ 30)%Z.
Proof.
  intros Hrun Hnz.
  destruct (stringToTypeFrom_result env 32 _ input t first_positive Hrun)
    as [Hsome _].
  destruct (Hsome Hnz) as (k & -> & Hmax & _). split; [|lia].
  assert (0 < 2 ^ Z.of_nat k)%Z by (apply Z.pow_pos_nonneg; lia). nia.
Qed.

Lemma parseTypes_mask entries nodeTypes :
  (0 <= nodeTypes < 2 ^ 32)%Z →
  Forall (λ e, e = "" ∨ ∃ t, stringToType env e = Some t ∧ t ≠ 0%Z) entries →
  parseTypes env entries nodeTypes
  = Some (inl (Z.lor nodeTypes (foldr Z.lor 0%Z (namedKinds env entries)))).
Proof.
  intros Hacc Hall. revert nodeTypes Hacc.
  induction Hall as [|e entries He _ IH]; intros nodeTypes Hacc.
  { simpl. by rewrite Z.lor_0_r. }
  unfold namedKinds. simpl. destruct (decide (e = "")) as [->|Hne].
  { by apply IH. }
  destruct He as [?|(t & Ht & Hnz)]; [done|]. rewrite Ht. simpl.
  rewrite decide_False by done.
  pose proof (stringToType_range e t Ht Hnz) as Hrange.
  assert (0 <= Z.lor nodeTypes t < 2 ^ 32)%Z as Hlor
    by (apply lor_below; lia).
  unfold uint. rewrite Z.mod_small by done.
  rewrite IH by done. by rewrite Z.lor_assoc.
Qed.

Lemma namedKinds_positive entries :
  Forall (λ e, e = "" ∨ ∃ t, stringToType env e = Some t ∧ t ≠ 0%Z) entries →
  (0 <= foldr Z.lor 0%Z (namedKinds env entries))%Z
  ∧ (foldr Z.lor 0%Z (namedKinds env entries) = 0%Z
     ↔ Forall (λ e, e = "") entries).
Proof.
  induction 1 as [|e entries He _ [IHpos IH]]; [done|].
  unfold namedKinds. simpl. destruct (decide (e = "")) as [->|Hne].
  { split; [done|]. rewrite IH. split; [by constructor|].
    by intros [_ ?]%Forall_cons. }
  destruct He as [?|(t & Ht & Hnz)]; [done|]. rewrite Ht. simpl.
  pose proof (stringToType_range e t Ht Hnz) as Hrange.
  split; [apply Z.lor_nonneg; split; [lia|done]|].
  split; [|by intros [? _]%Forall_cons].
  intros [? _]%Z.lor_eq_0_iff. lia.
Qed.

End Mask.

(** X17.  [lookup], the kinds being positive and below [2 ^ 30], when every
    entry of [types] that is not empty names a kind: [mVisitThread.lookup]
    is called once, with the free arguments, the flag [RegExp] exactly when
    [regexp] is given, and as kinds the bitwise or of the kinds that the
    entries name, in whatever order and however often they are named; these
    are all kinds except [Root] exactly when every entry is empty. *)
Theorem lookup_named_kinds {CXCursor} (env : Env CXCursor) (args : Args)
    (freeArgs : list QByteArray) (st : State) :
  let entries := split ","%char (toByteArray (value args "types")) in
  let named := foldr Z.lor 0%Z (namedKinds env entries) in
  let nodeTypes :=
    if decide (named = 0%Z) then uint (Z.land (All env) (Z.lnot (Root env)))
    else named in
  let flags := if hasArg args "regexp" then uint (RegExp env) else 0%Z in
  (0 < MethodDeclaration env)%Z → (EnumValue env < 2 ^ 30)%Z →
  Forall (λ e, e = "" ∨ ∃ t, stringToType env e = Some t ∧ t ≠ 0%Z) entries →
  lookup env args freeArgs st
  = Some (createResultMap (visitLookup env freeArgs flags nodeTypes),
          mkState (mTranslationUnits st) (disposed st) (addedFiles st)
            (loads st) (lookups st ++ [(freeArgs, flags, nodeTypes)]))
  ∧ (named = 0%Z ↔ Forall (λ e, e = "") entries).
Proof.
  intros entries named nodeTypes flags Hpos Hlast Hall.
  split; [|by apply namedKinds_positive].
  unfold lookup. fold entries.
  rewrite (parseTypes_mask env Hpos Hlast entries 0) by done.
  rewrite Z.lor_0_l. done.
Qed.

Lemma lookup_named_kinds_witness :
  ∃ st', lookup exampleEnv {[ "types" := QBytes "class,,STRUCT,Class" ]}
           ["main"] emptyState
         = Some (createResultMap
                   (visitLookup exampleEnv ["main"] 0%Z 48%Z), st').
Proof.
  eexists.
  apply (lookup_named_kinds exampleEnv
           {[ "types" := QBytes "class,,STRUCT,Class" ]} ["main"] emptyState).
  - vm_compute. reflexivity.
  - vm_compute. reflexivity.
  - constructor; [right; exists 16%Z; by split|].
    constructor; [by left|].
    constructor; [right; exists 32%Z; by split|].
    constructor; [right; exists 16%Z; by split|].
    constructor.
Defined.

(** *** [load] and [onFileParsed] *)

Section Loading.
Context {CXCursor : Type} (env : Env CXCursor).

(** What [load] leaves for a path that is a file: the marker of a file that
    is loading. *)
Lemma load_marks (freeArgs : list QByteArray) (st : State) :
  isFile env (loadPath env freeArgs) = true →
  mTranslationUnits (load env freeArgs st).2 !! loadPath env freeArgs
  = Some 0%N.
Proof.
  intros Hfile. unfold load. fold (loadPath env freeArgs).
  rewrite Hfile. simpl.
  destruct (mTranslationUnits st !! loadPath env freeArgs) as [[|unit]|]
    eqn:Hfound; simpl; [done|apply lookup_insert_eq..].
Qed.

End Loading.

(** X18.  [load] of a path that is a file, given again before the unit has
    been parsed, answers "File already loading" with the path and changes
    nothing: no unit is released and no second load is started. *)
Theorem load_again_is_refused {CXCursor} (env : Env CXCursor)
    (freeArgs : list QByteArray) (st : State) :
  isFile env (loadPath env freeArgs) = true →
  load env freeArgs (load env freeArgs st).2
  = (createResultMap ("File already loading " +:+ loadPath env freeArgs),
     (load env freeArgs st).2).
Proof.
  intros Hfile. pose proof (load_marks env freeArgs st Hfile) as Hmark.
  set (st1 := (load env freeArgs st).2) in *.
  unfold load at 1. fold (loadPath env freeArgs).
  by rewrite Hfile, Hmark.
Qed.

Lemma load_again_is_refused_witness :
  load exampleEnv ["a.cpp"] (load exampleEnv ["a.cpp"] twoUnits).2
  = (createResultMap "File already loading /src/a.cpp",
     (load exampleEnv ["a.cpp"] twoUnits).2).
Proof.
  apply (load_again_is_refused exampleEnv ["a.cpp"] twoUnits).
  vm_compute. reflexivity.
Defined.

(** X19.  [load] of a path that is a file and is not loading yet, followed
    by [onFileParsed] for that path: the cache is the old one with the
    parsed unit at the path, one load has been started, and the handles
    released are the unit that was cached for the path, if any, and then
    the null handle that marked the file as loading. *)
Theorem onFileParsed_after_load {CXCursor} (env : Env CXCursor)
    (freeArgs : list QByteArray) (translationUnit : CXTranslationUnit)
    (st : State) :
  let path := loadPath env freeArgs in
  let st' := onFileParsed path translationUnit (load env freeArgs st).2 in
  isFile env path = true →
  mTranslationUnits st !! path ≠ Some 0%N →
  mTranslationUnits st' = <[path := translationUnit]> (mTranslationUnits st)
  ∧ disposed st'
    = disposed st ++ option_list (mTranslationUnits st !! path) ++ [0%N]
  ∧ loads st' = loads st ++ [path]
  ∧ addedFiles st' = addedFiles st ∧ lookups st' = lookups st.
Proof.
  intros path st' Hfile Hfree. subst st'. unfold onFileParsed.
  pose proof (load_marks env freeArgs st Hfile) as Hmark.
  fold path in Hmark. rewrite Hmark. clear Hmark.
  unfold load. fold (loadPath env freeArgs). fold path. rewrite Hfile. simpl.
  destruct (mTranslationUnits st !! path) as [[|unit]|] eqn:Hfound;
    [done|simpl..].
  - rewrite insert_insert_eq, insert_delete_eq.
    by rewrite <- app_assoc.
  - by rewrite insert_insert_eq, insert_delete_eq.
Qed.

Lemma onFileParsed_after_load_witness :
  disposed (onFileParsed "/src/a.cpp" 7%N
              (load exampleEnv ["a.cpp"] twoUnits).2)
  = [1%N; 0%N].
Proof.
  apply (onFileParsed_after_load exampleEnv ["a.cpp"] 7%N twoUnits).
  - vm_compute. reflexivity.
  - vm_compute. discriminate.
Defined.

(** X20.  While a file is loading, that is after [load] of a path that is a
    file and before [onFileParsed], [lookupline] for that file, with a line
    and a column that are not 0, answers "Translation unit not found". *)
Theorem lookupLine_while_loading {CXCursor} (env : Env CXCursor)
    (args : Args) (freeArgs : list QByteArray) (st : State) :
  let file := toByteArray (value args "file") in
  let file := if isResolved env file then (resolve env file).2 else file in
  hasArg args "file" = true → hasArg args "line" = true →
  hasArg args "column" = true →
  file = loadPath env freeArgs → isFile env file = true →
  toInt env (value args "line") ≠ 0%Z →
  toInt env (value args "column") ≠ 0%Z →
  lookupLine env args (load env freeArgs st).2
  = createResultMap "Translation unit not found".
Proof.
  intros file0 file Hfile Hline Hcolumn Hsame Hisfile Hl Hc.
  assert (mTranslationUnits (load env freeArgs st).2 !! file = Some 0%N)
    as Hmark.
  { rewrite Hsame. apply load_marks. by rewrite <- Hsame. }
  unfold lookupLine. rewrite Hfile, Hline, Hcolumn. simpl.
  fold file0. fold file. rewrite Hisfile. simpl.
  rewrite (bool_decide_eq_false_2 _ Hl), (bool_decide_eq_false_2 _ Hc).
  simpl. by rewrite Hmark.
Qed.

Lemma lookupLine_while_loading_witness :
  lookupLine exampleEnv (lineArgs 1) (load exampleEnv ["a.cpp"] twoUnits).2
  = createResultMap "Translation unit not found".
Proof.
  apply (lookupLine_while_loading exampleEnv (lineArgs 1) ["a.cpp"] twoUnits);
    vm_compute; (reflexivity || discriminate).
Defined.

(** *** [runCommand] *)

Ltac framed := simpl; split_and?; eauto.

Section Frame.
Context {CXCursor : Type} (env : Env CXCursor).

Lemma addSourceFile_frame args st :
  let st' := (addSourceFile env args st).2 in
  (∃ text, (addSourceFile env args st).1 = createResultMap text)
  ∧ mTranslationUnits st' = mTranslationUnits st
  ∧ disposed st' = disposed st ∧ loads st' = loads st
  ∧ lookups st' = lookups st.
Proof.
  unfold addSourceFile. simpl.
  destruct (decide _); [by framed|].
  destruct (resolve env _) as [[] resolved]; simpl; by framed.
Qed.

Lemma removeSourceFile_frame order args freeArgs st result st' :
  removeSourceFile env order args freeArgs st = Some (result, st') →
  (∃ text, result = createResultMap text)
  ∧ addedFiles st' = addedFiles st ∧ loads st' = loads st
  ∧ lookups st' = lookups st.
Proof.
  unfold removeSourceFile. intros Hrun.
  destruct freeArgs as [|first [|second rest]]; simplify_eq; [by framed| |by framed].
  destruct (decide (first = "")); simplify_eq; [by framed|].
  destruct (_ && _); simplify_eq; [by framed|].
  destruct (removeLoop _ _ _ _ _ _ _) as [[[units released] removed]|];
    [|done].
  destruct (decide (removed = [])); simplify_eq; by framed.
Qed.

Lemma lookup_frame args freeArgs st result st' :
  lookup env args freeArgs st = Some (result, st') →
  (∃ text, result = createResultMap text)
  ∧ mTranslationUnits st' = mTranslationUnits st
  ∧ disposed st' = disposed st ∧ addedFiles st' = addedFiles st
  ∧ loads st' = loads st.
Proof.
  unfold lookup. intros Hrun.
  destruct (parseTypes _ _ _) as [[parsed|bad]|]; simplify_eq; by framed.
Qed.

Lemma load_frame freeArgs st :
  let st' := (load env freeArgs st).2 in
  (∃ text, (load env freeArgs st).1 = createResultMap text)
  ∧ addedFiles st' = addedFiles st ∧ lookups st' = lookups st.
Proof.
  unfold load. simpl. destruct (negb _); [by framed|].
  destruct (mTranslationUnits st !! _) as [[|unit]|]; simpl; by framed.
Qed.

Lemma lookupLine_text args st :
  ∃ text, lookupLine env args st = createResultMap text.
Proof.
  unfold lookupLine.
  repeat (match goal with
          | |- context [if ?c then _ else _] => destruct c
          end; [by eauto|]).
  by eauto.
Qed.

Lemma addMakefile_text dashArgs freeArgs :
  ∃ text, (addMakefile env dashArgs freeArgs).1 = createResultMap text.
Proof.
  unfold addMakefile. destruct freeArgs as [|first rest]; [by eauto|].
  destruct (negb (isFile env _)); by eauto.
Qed.

End Frame.

(** X21.  A command that [runCommand] answers: the answer is a map with the
    one key [result]; only [remove] and [load] change the cache of units or
    release a unit; only [add] has [mParseThread.addFile] called, only
    [load] has a unit loaded, only [lookup] has [mVisitThread.lookup]
    called; and only [quit], [printtree] and [makefile] make any of the
    other calls on the threads and the application. *)
Theorem runCommand_frame {CXCursor} (env : Env CXCursor) (files : gset Path)
    (setOrder : gset Path → list Path) (order : list Path) (dashArgs : Args)
    (freeArgs : list QByteArray) (st st' : State) (result : Args)
    (calls : list Call) :
  let cmd := toByteArray (value dashArgs "command") in
  runCommand env files setOrder order dashArgs freeArgs st
  = Some (result, st', calls) →
  (∃ text, result = createResultMap text)
  ∧ (cmd ≠ "remove" → cmd ≠ "load" →
     mTranslationUnits st' = mTranslationUnits st
     ∧ disposed st' = disposed st)
  ∧ (cmd ≠ "add" → addedFiles st' = addedFiles st)
  ∧ (cmd ≠ "load" → loads st' = loads st)
  ∧ (cmd ≠ "lookup" → lookups st' = lookups st)
  ∧ (cmd ≠ "quit" → cmd ≠ "printtree" → cmd ≠ "makefile" → calls = []).
Proof.
  intros cmd. unfold runCommand. fold cmd.
  repeat (destruct (decide (cmd = _)) as [Hcmd|?];
          [try rewrite !Hcmd; clear Hcmd|]).
  all: intros Hrun.
  - simplify_eq. split_and!; by eauto.
  - simplify_eq. split_and!; by eauto.
  - simplify_eq. split_and!; by eauto.
  - pose proof (addSourceFile_frame env dashArgs st) as Hframe.
    destruct (addSourceFile env dashArgs st) as [r s1]. simplify_eq.
    simpl in Hframe. destruct Hframe as (? & ? & ? & ? & ?).
    split_and!; by eauto.
  - destruct (removeSourceFile _ _ _ _ _) as [[r s1]|] eqn:Hremove; [|done].
    simplify_eq.
    destruct (removeSourceFile_frame env _ _ _ _ _ _ Hremove)
      as (? & ? & ? & ?).
    split_and!; by eauto.
  - simplify_eq. split_and!; by eauto.
  - simplify_eq. destruct (lookupLine_text env dashArgs st'). 
    split_and!; by eauto.
  - pose proof (addMakefile_text env dashArgs freeArgs) as Htext.
    destruct (addMakefile env dashArgs freeArgs) as [r c]. simplify_eq.
    split_and!; by eauto.
  - simplify_eq. split_and!; by (unfold fileList; eauto).
  - destruct (lookup _ _ _ _) as [[r s1]|] eqn:Hlookup; [|done].
    simplify_eq.
    destruct (lookup_frame env _ _ _ _ _ Hlookup) as (? & ? & ? & ? & ?).
    split_and!; by eauto.
  - pose proof (load_frame env freeArgs st) as Hframe.
    destruct (load env freeArgs st) as [r s1]. simplify_eq.
    simpl in Hframe. destruct Hframe as (? & ? & ?).
    split_and!; by eauto.
  - simplify_eq. split_and!; by eauto.
Qed.

Lemma runCommand_frame_witness :
  ∃ st', runCommand exampleEnv ∅ elements ["/src/a.cpp"; "/src/b.h"]
           {[ "command" := QBytes "remove" ]} ["a.cpp"] twoUnits
         = Some (createResultMap "Removed /src/b.h", st', [])
  ∧ addedFiles st' = addedFiles twoUnits.
Proof.
  eexists. split; [vm_compute; reflexivity|].
  eapply (runCommand_frame exampleEnv ∅ elements ["/src/a.cpp"; "/src/b.h"]
            {[ "command" := QBytes "remove" ]} ["a.cpp"] twoUnits).
  - vm_compute. reflexivity.
  - vm_compute. discriminate.
Defined.

(** *** [fileList] *)

(** X22.  [files], a [QSet] being iterated over its elements, each once:
    the answer is the listed paths, one a line; with a [regexp] that is not
    empty they are the files of the visit thread that the expression
    matches, whatever [match] is; otherwise, with a [match] that is not
    empty, the files that contain it; and with neither, all files. *)
Theorem fileList_lists_matching {CXCursor} (env : Env CXCursor)
    (files : gset Path) (setOrder : gset Path → list Path) (args : Args) :
  let rx := toByteArray (value args "regexp") in
  let pattern := toByteArray (value args "match") in
  (∀ X, setOrder X ≡ₚ elements X) →
  ∃ lines,
    fileList env files setOrder args
    = createResultMap (String.concat newline lines)
    ∧ NoDup lines
    ∧ ∀ path, path ∈ lines ↔
        path ∈ files
        ∧ (if decide (rx = "") then
             pattern = "" ∨ bytesContain pattern path = true
           else rxContains env rx path = true).
Proof.
  intros rx pattern Horder.
  exists (setOrder (listedFiles env files args)). split_and!.
  - unfold fileList. by rewrite joined_concat.
  - rewrite Horder. apply NoDup_elements.
  - intros path. rewrite Horder, elem_of_elements.
    unfold listedFiles, filePattern. fold rx. fold pattern.
    destruct (decide (rx = "")) as [Hrx|Hrx].
    + destruct (decide (pattern = "")) as [Hp|Hp]; [naive_solver|].
      rewrite elem_of_filter. unfold matchesKey. naive_solver.
    + rewrite decide_False by done.
      rewrite elem_of_filter. unfold matchesKey. naive_solver.
Qed.

Lemma fileList_lists_matching_witness :
  ∃ lines,
    fileList exampleEnv {[ "/src/a.cpp"; "/src/b.h" ]} elements
      {[ "match" := QBytes ".h" ]}
    = createResultMap (String.concat newline lines)
    ∧ ("/src/b.h" ∈ lines) ∧ ("/src/a.cpp" ∉ lines).
Proof.
  destruct (fileList_lists_matching exampleEnv {[ "/src/a.cpp"; "/src/b.h" ]}
              elements {[ "match" := QBytes ".h" ]} ltac:(done))
    as (lines & Hanswer & _ & Hlines).
  exists lines. split_and!; [done| |].
  - apply Hlines. split; [set_solver|]. right. vm_compute. reflexivity.
  - intros [_ Hin]%Hlines. vm_compute in Hin. by destruct Hin.
Defined.

(** *** [lookupLine] *)

(** X23.  [lookupline] answers with a text that begins with "Symbol" only
    when the three arguments are given, the path is a file, line and column
    are not 0, a unit other than the null handle is cached for the path, and
    the cursor at the position and the cursor it resolves to are valid; the
    text is then that of the location of the resolved cursor, cut to 62
    characters. *)
Theorem lookupLine_symbol_only_if {CXCursor} (env : Env CXCursor)
    (args : Args) (st : State) (text : QByteArray) :
  let file := toByteArray (value args "file") in
  let file := if isResolved env file then (resolve env file).2 else file in
  let line := toInt env (value args "line") in
  let column := toInt env (value args "column") in
  let unit := default 0%N (mTranslationUnits st !! file) in
  let cursor := cursorAt env unit file line column in
  lookupLine env args st = createResultMap text →
  String.prefix "Symbol" text = true →
  hasArg args "file" = true ∧ hasArg args "line" = true
  ∧ hasArg args "column" = true
  ∧ isFile env file = true ∧ line ≠ 0%Z ∧ column ≠ 0%Z ∧ unit ≠ 0%N
  ∧ isValidCursor env cursor = true
  ∧ isValidCursor env (resolveCursor env cursor) = true
  ∧ text
    = snprintf 63
        (symbolAt (instantiationLocation env (resolveCursor env cursor))).
Proof.
  intros file0 file line column unit cursor. unfold lookupLine.
  fold file0. fold file. fold line. fold column. fold unit. fold cursor.
  destruct (hasArg args "file"), (hasArg args "line"),
    (hasArg args "column"); simpl;
    try by intros <-%createResultMap_inj.
  destruct (isFile env file); simpl; [|by intros <-%createResultMap_inj].
  destruct (bool_decide_reflect (line = 0%Z)); simpl;
    [by intros <-%createResultMap_inj|].
  destruct (bool_decide_reflect (column = 0%Z)); simpl;
    [by intros <-%createResultMap_inj|].
  destruct (decide (unit = 0%N)); [by intros <-%createResultMap_inj|].
  destruct (isValidCursor env cursor); simpl;
    [|by intros <-%createResultMap_inj].
  destruct (isValidCursor env (resolveCursor env cursor)); simpl;
    [|by intros <-%createResultMap_inj].
  intros <-%createResultMap_inj _. done.
Qed.

Lemma lookupLine_symbol_only_if_witness :
  default 0%N (mTranslationUnits twoUnits !! "/src/a.cpp") ≠ 0%N
  ∧ lookupLine exampleEnv (lineArgs 1) twoUnits
    = createResultMap
        (snprintf 63 (symbolAt (instantiationLocation exampleEnv 3))).
Proof.
  destruct (lookupLine_symbol_only_if exampleEnv (lineArgs 1) twoUnits
              "Symbol (decl) at /src/b.h, line 3 column 1"
              ltac:(vm_compute; reflexivity) ltac:(vm_compute; reflexivity))
    as (_ & _ & _ & _ & _ & _ & Hunit & _ & _ & Htext).
  split; [exact Hunit|]. vm_compute. reflexivity.
Defined.

End DaemonMore.
